(** * simple_pipe: relaying [struct input_event] records from stdin to stdout

    A shallow embedding of [tools/simple_pipe.c] and the properties of its
    relay loop.

    The program talks to its environment through [read], [write],
    [fprintf(stderr, ..)] and [perror].  The embedding threads an explicit
    state through the code: the record buffer [ev], [errno], and the trace
    of the calls made so far with their results.  The results of the system
    calls come from an oracle, the [world], which answers the [i]-th read
    and the [i]-th write; a signal that interrupts a call shows as the
    failure of that call with [EINTR], as the program sees it.  The two
    loops run on fuel, and a run that is out of fuel still gives the state
    it has reached, so that the properties below hold of every finite part
    of every run, ended or not.

    The file has five parts: the model of the program, the traces it can
    make, the lemmas about them, the claims of the specification, and
    further properties of the program. *)

From Stdlib Require Import ZArith List String Ascii Strings.Byte Lia.
From Stdlib Require Import DecimalString.
Import ListNotations.
Local Open Scope Z_scope.

(** * The model *)

(** ** C integers *)

(** [(size_t) z] on a 64-bit target. *)
Definition to_size_t (z : Z) : Z := z mod 2 ^ 64.

(** The value of a [w]-bit two's complement pattern [z], [0 <= z < 2^w]. *)
Definition to_signed (w : Z) (z : Z) : Z :=
  if z <? 2 ^ (w - 1) then z else z - 2 ^ w.

(** The two [errno] values the program tests, with their numbers on Linux
    (<errno.h> is a system header). *)
Definition EINTR : Z := 4.
Definition EPIPE : Z := 32.

(** ** The record *)

(** Modelled from the spec: [struct input_event] is declared in
    <linux/input.h>, which is not part of the repository.  The spec gives
    its fields (a timestamp of seconds and microseconds, a 16-bit type, a
    16-bit code, a signed 32-bit value); the widths of the timestamp fields
    and the little-endian layout are those of a 64-bit Linux target, where
    [sizeof(struct input_event)] is 24. *)
Record input_event : Type := {
  tv_sec : Z;
  tv_usec : Z;
  type : Z;
  code : Z;
  value : Z
}.

Definition event_size : Z := 24.

(** A record of the full size. *)
Definition well_formed (r : list byte) : Prop :=
  Z.of_nat (List.length r) = event_size.

(** Little-endian reading of a byte string as an unsigned number. *)
Definition le_unsigned (bs : list byte) : Z :=
  fold_right (fun b acc => Z.of_N (Byte.to_N b) + 256 * acc) 0 bs.

(** The [len] bytes at offset [off] of a buffer, as an unsigned number. *)
Definition field (off len : nat) (buf : list byte) : Z :=
  le_unsigned (firstn len (skipn off buf)).

(** The fields of [ev] as the program reads them from the buffer. *)
Definition decode (buf : list byte) : input_event :=
  {| tv_sec := to_signed 64 (field 0 8 buf);
     tv_usec := to_signed 64 (field 8 8 buf);
     type := field 16 2 buf;
     code := field 18 2 buf;
     value := to_signed 32 (field 20 4 buf) |}.

(** Little-endian writing of the low [n] bytes of [z]. *)
Fixpoint le_bytes (n : nat) (z : Z) : list byte :=
  match n with
  | O => []
  | S n' =>
      match Byte.of_N (Z.to_N (z mod 256)) with
      | Some b => b
      | None => x00
      end :: le_bytes n' (z / 256)
  end.

(** The bytes of a record in memory. *)
Definition encode (e : input_event) : list byte :=
  le_bytes 8 (tv_sec e) ++ le_bytes 8 (tv_usec e) ++
  le_bytes 2 (type e) ++ le_bytes 2 (code e) ++ le_bytes 4 (value e).

(** The values the fields of [struct input_event] can hold. *)
Definition in_range (e : input_event) : Prop :=
  (- 2 ^ 63 <= tv_sec e < 2 ^ 63) /\
  (- 2 ^ 63 <= tv_usec e < 2 ^ 63) /\
  (0 <= type e < 2 ^ 16) /\
  (0 <= code e < 2 ^ 16) /\
  (- 2 ^ 31 <= value e < 2 ^ 31).

(** ** printf conversions *)

Definition nl : string := String (ascii_of_nat 10) EmptyString.

(** [%d], [%ld] and [%zd]. *)
Definition dec (z : Z) : string := NilZero.string_of_int (Z.to_int z).

Fixpoint zeros (n : nat) : string :=
  match n with
  | O => EmptyString
  | S n' => String "0" (zeros n')
  end.

(** [%06ld]: the sign, then zeros up to a width of six, then the digits. *)
Definition dec06 (z : Z) : string :=
  let digits := NilZero.string_of_uint (N.to_uint (Z.abs_N z)) in
  if z <? 0
  then String "-" (zeros (5 - String.length digits) ++ digits)
  else (zeros (6 - String.length digits) ++ digits)%string.

(** The format of line 34 applied to the fields of a record. *)
Definition event_line (e : input_event) : string :=
  ("Read event: time=" ++ dec (tv_sec e) ++ "." ++ dec06 (tv_usec e) ++
   ", type=" ++ dec (type e) ++ ", code=" ++ dec (code e) ++
   ", value=" ++ dec (value e) ++ nl)%string.

(** The line logged for the record in the buffer [buf]. *)
Definition read_event_line (buf : list byte) : string :=
  event_line (decode buf).

Definition partial_read_line (n : Z) : string :=
  ("Error: Partial read from stdin (" ++ dec n ++ " bytes)" ++ nl)%string.

Definition partial_write_line (n : Z) : string :=
  ("Error: Partial write to stdout (" ++ dec n ++ " bytes)" ++ nl)%string.

Definition broken_pipe_line : string :=
  ("Simple_pipe: Output pipe broken, exiting." ++ nl)%string.

Definition broken_pipe_retry_line : string :=
  ("Simple_pipe: Output pipe broken during retry, exiting." ++ nl)%string.

(** ** The environment *)

(** What one [read] call does: it stores [data] at the start of the buffer
    and returns its length ([RdBytes []] is end of file), or it fails with
    [errno = e]. *)
Inductive read_outcome : Type :=
| RdBytes (data : list byte)
| RdErr (e : Z).

(** What one [write] call does: it takes the first [n] bytes offered and
    returns [n], or it fails with [errno = e] having taken none. *)
Inductive write_outcome : Type :=
| WrBytes (n : nat)
| WrErr (e : Z).

Arguments WrBytes n%_nat.

(** The calls the program makes, with their results. *)
Inductive event : Type :=
| EvRead (count : Z) (o : read_outcome)
| EvWrite (buf : list byte) (o : write_outcome)
| EvFprintf (text : string)
| EvPerror (s : string) (errnum : Z).

(** The oracle: the outcome of the [i]-th read and of the [i]-th write.  A
    read never stores more than the bytes requested and a write never takes
    more than the bytes offered: [sys_read] and [sys_write] cut the
    oracle's answer down to the request. *)
Record world : Type := {
  rd : nat -> read_outcome;
  wr : nat -> write_outcome
}.

Record state : Type := {
  ev : list byte;        (* the bytes of [struct input_event ev] *)
  errno : Z;
  reads : nat;           (* read calls made *)
  writes : nat;          (* write calls made *)
  trace : list event     (* every call made, oldest first *)
}.

Definition record_event (e : event) (st : state) : state :=
  {| ev := ev st; errno := errno st; reads := reads st;
     writes := writes st; trace := trace st ++ [e] |}.

(** [read(STDIN_FILENO, &ev, count)]. *)
Definition sys_read (w : world) (st : state) (count : Z) : Z * state :=
  match rd w (reads st) with
  | RdErr e =>
      (-1, {| ev := ev st; errno := e; reads := S (reads st);
              writes := writes st;
              trace := trace st ++ [EvRead count (RdErr e)] |})
  | RdBytes data =>
      let got := firstn (Z.to_nat count) data in
      (Z.of_nat (List.length got),
       {| ev := got ++ skipn (List.length got) (ev st); errno := errno st;
          reads := S (reads st); writes := writes st;
          trace := trace st ++ [EvRead count (RdBytes got)] |})
  end.

(** [write(STDOUT_FILENO, ((char* )&ev) + off, count)]. *)
Definition sys_write (w : world) (st : state) (off count : Z) : Z * state :=
  let buf := firstn (Z.to_nat count) (skipn (Z.to_nat off) (ev st)) in
  match wr w (writes st) with
  | WrErr e =>
      (-1, {| ev := ev st; errno := e; reads := reads st;
              writes := S (writes st);
              trace := trace st ++ [EvWrite buf (WrErr e)] |})
  | WrBytes n =>
      let sent := firstn n buf in
      (Z.of_nat (List.length sent),
       {| ev := ev st; errno := errno st; reads := reads st;
          writes := S (writes st);
          trace := trace st ++ [EvWrite buf (WrBytes (List.length sent))] |})
  end.

(** [fprintf(stderr, ..)], with the text already formatted. *)
Definition fprintf_stderr (st : state) (text : string) : state :=
  record_event (EvFprintf text) st.

(** [perror(s)]: [s] and the message of the current [errno]. *)
Definition perror (st : state) (s : string) : state :=
  record_event (EvPerror s (errno st)) st.

(** ** The program *)

(** How a run of the inner loop ends: out of fuel, the loop condition became
    false, [goto end_loop], or [return status]. *)
Inductive ctl : Type :=
| Running
| Fallthrough
| GotoEndLoop
| Return (status : Z).

(** The loop of lines 51-65, entered with [total_written = 0].  [fuel]
    bounds the number of times its body runs.  [total_written] stays
    between 0 and [event_size] (a write returns at most the count it was
    asked for), so [total_written += bytes_written] is written without the
    wrap-around of [ssize_t]; [event_size - total_written] is computed in
    [size_t] as in the source. *)
Fixpoint write_retry (fuel : nat) (w : world) (st : state)
    (total_written : Z) : ctl * state :=
  if total_written <? event_size then
    match fuel with
    | O => (Running, st)
    | S fuel' =>
        let '(bytes_written, st1) :=
          sys_write w st total_written
            (to_size_t (event_size - total_written)) in
        if bytes_written <? 0 then
          if errno st1 =? EINTR then
            write_retry fuel' w st1 total_written
          else if errno st1 =? EPIPE then
            (GotoEndLoop, fprintf_stderr st1 broken_pipe_retry_line)
          else
            (Return 1, perror st1 "Error writing to stdout during retry")
        else
          write_retry fuel' w st1 (total_written + bytes_written)
    end
  else (Fallthrough, st).

(** The loop of lines 13-77 up to the exit status of [main]: [Some status]
    when the process has exited, [None] when [fuel] ran out first.  One
    unit of [fuel] is one round of the outer loop; the inner loop of a
    round may take as many rounds as there is fuel left.  [break] and
    [goto end_loop] both lead to the [return 0] of line 80. *)
Fixpoint main_loop (fuel : nat) (w : world) (st : state)
    : option Z * state :=
  match fuel with
  | O => (None, st)
  | S fuel' =>
      let '(bytes_read, st1) := sys_read w st event_size in
      if bytes_read =? 0 then
        (Some 0, st1)
      else if bytes_read <? 0 then
        if errno st1 =? EINTR then
          main_loop fuel' w st1
        else
          (Some 1, perror st1 "Error reading from stdin")
      else if to_size_t bytes_read <? event_size then
        (Some 1, fprintf_stderr st1 (partial_read_line bytes_read))
      else
        let st2 := fprintf_stderr st1 (read_event_line (ev st1)) in
        let '(bytes_written, st3) := sys_write w st2 0 event_size in
        if bytes_written <? 0 then
          if errno st3 =? EPIPE then
            (Some 0, fprintf_stderr st3 broken_pipe_line)
          else if errno st3 =? EINTR then
            match write_retry fuel' w st3 0 with
            | (Running, st4) => (None, st4)
            | (Fallthrough, st4) => main_loop fuel' w st4
            | (GotoEndLoop, st4) => (Some 0, st4)
            | (Return status, st4) => (Some status, st4)
            end
          else
            (Some 1, perror st3 "Error writing to stdout")
        else if to_size_t bytes_written <? event_size then
          (Some 1, fprintf_stderr st3 (partial_write_line bytes_written))
        else
          main_loop fuel' w st3
  end.

(** The state in which [main] starts: [ev] is uninitialised, so its bytes
    [ev0] are arbitrary. *)
Definition init (ev0 : list byte) : state :=
  {| ev := ev0; errno := 0; reads := 0; writes := 0; trace := [] |}.

Definition main (fuel : nat) (w : world) (ev0 : list byte)
    : option Z * state :=
  main_loop fuel w (init ev0).

(** ** What the outside sees *)

(** The bytes that reached the output stream. *)
Definition stdout_of (tr : list event) : list byte :=
  flat_map (fun e =>
    match e with
    | EvWrite buf (WrBytes n) => firstn n buf
    | _ => []
    end) tr.

(** The diagnostics, in the order they were emitted. *)
Definition stderr_of (tr : list event) : list event :=
  filter (fun e =>
    match e with
    | EvFprintf _ | EvPerror _ _ => true
    | _ => false
    end) tr.

(** The records read in full. *)
Definition records_of (tr : list event) : list (list byte) :=
  flat_map (fun e =>
    match e with
    | EvRead _ (RdBytes data) =>
        if Z.of_nat (List.length data) =? event_size then [data] else []
    | _ => []
    end) tr.

(** The write calls of a trace. *)
Definition writes_of (tr : list event) : list event :=
  filter (fun e => match e with EvWrite _ _ => true | _ => false end) tr.

(** ** Worlds *)

Definition full_write : write_outcome := WrBytes (Z.to_nat event_size).

(** The input stream that holds the records [recs] and then ends. *)
Definition feed (recs : list (list byte)) : nat -> read_outcome :=
  fun i => nth i (map RdBytes recs) (RdBytes []).

(** The output stream that goes through the outcomes [ws] and takes every
    byte offered from then on. *)
Definition sink (ws : list write_outcome) : nat -> write_outcome :=
  fun i => nth i ws full_write.

(** The world that presents the records [recs] and injects no fault. *)
Definition quiet (recs : list (list byte)) : world :=
  {| rd := feed recs; wr := sink [] |}.

(** The world that presents the records [before] and then [r], takes the
    records [before] whole, interrupts the first write of [r] and answers
    the writes of the inner loop with [sched]. *)
Definition interrupting (before : list (list byte)) (r : list byte)
    (sched : list write_outcome) : world :=
  {| rd := feed (before ++ [r]);
     wr := sink (repeat full_write (List.length before) ++
                 WrErr EINTR :: sched) |}.

(** * Traces *)

(** ** The shape of the traces *)

(** The bytes of the record [r] from offset [t] on. *)
Definition rest (r : list byte) (t : Z) : list byte :=
  skipn (Z.to_nat t) r.

(** The read and the log line that open the iteration for a record [r]. *)
Definition opening (r : list byte) : list event :=
  [EvRead event_size (RdBytes r); EvFprintf (read_event_line r)].

(** One iteration of the loop for the record [r]. *)
Definition relay (r : list byte) : list event :=
  opening r ++ [EvWrite r (WrBytes (List.length r))].

(** The calls the inner loop makes for the record [r] from
    [total_written = t] on, and how it ends. *)
Inductive retry_trace (r : list byte) : Z -> list event -> ctl -> Prop :=
| RT_fallthrough t :
    event_size <= t ->
    retry_trace r t [] Fallthrough
| RT_running t :
    t < event_size ->
    retry_trace r t [] Running
| RT_eintr t evs c :
    t < event_size ->
    retry_trace r t evs c ->
    retry_trace r t (EvWrite (rest r t) (WrErr EINTR) :: evs) c
| RT_epipe t :
    t < event_size ->
    retry_trace r t
      [EvWrite (rest r t) (WrErr EPIPE); EvFprintf broken_pipe_retry_line]
      GotoEndLoop
| RT_error t e :
    t < event_size -> e <> EINTR -> e <> EPIPE ->
    retry_trace r t
      [EvWrite (rest r t) (WrErr e);
       EvPerror "Error writing to stdout during retry" e]
      (Return 1)
| RT_bytes t n evs c :
    t < event_size -> (n <= List.length (rest r t))%nat ->
    retry_trace r (t + Z.of_nat n) evs c ->
    retry_trace r t (EvWrite (rest r t) (WrBytes n) :: evs) c.

(** The calls the outer loop makes, and the exit status if it ends. *)
Inductive main_trace : list event -> option Z -> Prop :=
| MT_running :
    main_trace [] None
| MT_eof :
    main_trace [EvRead event_size (RdBytes [])] (Some 0)
| MT_read_eintr evs c :
    main_trace evs c ->
    main_trace (EvRead event_size (RdErr EINTR) :: evs) c
| MT_read_error e :
    e <> EINTR ->
    main_trace
      [EvRead event_size (RdErr e); EvPerror "Error reading from stdin" e]
      (Some 1)
| MT_read_short d :
    0 < Z.of_nat (List.length d) < event_size ->
    main_trace
      [EvRead event_size (RdBytes d);
       EvFprintf (partial_read_line (Z.of_nat (List.length d)))]
      (Some 1)
| MT_forward r evs c :
    well_formed r ->
    main_trace evs c ->
    main_trace
      (opening r ++ EvWrite r (WrBytes (List.length r)) :: evs) c
| MT_write_short r n :
    well_formed r ->
    (n < List.length r)%nat ->
    main_trace
      (opening r ++
       [EvWrite r (WrBytes n); EvFprintf (partial_write_line (Z.of_nat n))])
      (Some 1)
| MT_write_epipe r :
    well_formed r ->
    main_trace
      (opening r ++ [EvWrite r (WrErr EPIPE); EvFprintf broken_pipe_line])
      (Some 0)
| MT_write_error r e :
    well_formed r ->
    e <> EPIPE -> e <> EINTR ->
    main_trace
      (opening r ++
       [EvWrite r (WrErr e); EvPerror "Error writing to stdout" e])
      (Some 1)
| MT_retry_running r ws :
    well_formed r ->
    retry_trace r 0 ws Running ->
    main_trace (opening r ++ EvWrite r (WrErr EINTR) :: ws) None
| MT_retry_fallthrough r ws evs c :
    well_formed r ->
    retry_trace r 0 ws Fallthrough ->
    main_trace evs c ->
    main_trace (opening r ++ EvWrite r (WrErr EINTR) :: ws ++ evs) c
| MT_retry_goto r ws :
    well_formed r ->
    retry_trace r 0 ws GotoEndLoop ->
    main_trace (opening r ++ EvWrite r (WrErr EINTR) :: ws) (Some 0)
| MT_retry_return r ws status :
    well_formed r ->
    retry_trace r 0 ws (Return status) ->
    main_trace (opening r ++ EvWrite r (WrErr EINTR) :: ws) (Some status).

(** ** States the loops pass through *)

(** The state after an iteration that forwarded the record [r] whole. *)
Definition forwarded (st : state) (r : list byte) : state :=
  {| ev := r ++ skipn (List.length r) (ev st); errno := errno st;
     reads := S (reads st); writes := S (writes st);
     trace := trace st ++ relay r |}.

(** The state in which the inner loop is entered for the record [r]. *)
Definition interrupted (st : state) (r : list byte) : state :=
  {| ev := r ++ skipn (List.length r) (ev st); errno := EINTR;
     reads := S (reads st); writes := S (writes st);
     trace := trace st ++ opening r ++ [EvWrite r (WrErr EINTR)] |}.

(** The state after a write that stalled: one more write was made, and the
    bytes [buf] were offered with the result [o]. *)
Definition stalled (st : state) (buf : list byte) (o : write_outcome)
    : state :=
  {| ev := ev st;
     errno := match o with WrErr e => e | WrBytes _ => errno st end;
     reads := reads st; writes := S (writes st);
     trace := trace st ++ [EvWrite buf o] |}.

(** The bytes offered by the write of line 52. *)
Definition offered (st : state) (total_written : Z) : list byte :=
  firstn (Z.to_nat (to_size_t (event_size - total_written)))
         (skipn (Z.to_nat total_written) (ev st)).

(** ** Results of a write *)

(** Results of a write after which the inner loop goes on: any count, or
    EINTR. *)
Definition transient (o : write_outcome) : Prop :=
  match o with
  | WrBytes _ => True
  | WrErr e => e = EINTR
  end.

(** A result of write after which the inner loop has moved on or stopped:
    at least one byte taken, or an error other than EINTR. *)
Definition advances (o : write_outcome) : Prop :=
  match o with
  | WrBytes n => (1 <= n)%nat
  | WrErr e => e <> EINTR
  end.

(** A result of write after which the inner loop repeats the same request:
    no byte taken, or EINTR. *)
Definition stalls (o : write_outcome) : Prop :=
  match o with
  | WrBytes n => n = 0%nat
  | WrErr e => e = EINTR
  end.

(** ** Properties of traces *)

(** The call is a read. *)
Definition is_read (e : event) : Prop :=
  match e with EvRead _ _ => True | _ => False end.

(** Every read that returned data returned a whole record. *)
Definition whole_reads (tr : list event) : Prop :=
  Forall (fun e =>
    match e with
    | EvRead _ (RdBytes data) => well_formed data
    | _ => True
    end) tr.

(** The output stream holds the records read so far, each once, in the
    order read, and nothing else. *)
Definition settled (tr : list event) : Prop :=
  stdout_of tr = List.concat (records_of tr) /\ whole_reads tr.

(** The output stream holds the records read, in the order read, each once:
    all in full, except that of the last one read it may hold only the
    first [k] bytes. *)
Definition relayed (tr : list event) : Prop :=
  exists done last k,
    records_of tr = done ++ last /\ (List.length last <= 1)%nat /\
    stdout_of tr = List.concat done ++ firstn k (List.concat last).

(** [perror] is never called with [errno == EINTR]. *)
Definition not_eintr_report (e : event) : Prop :=
  match e with
  | EvPerror _ n => n <> EINTR
  | _ => True
  end.

(** [each P pre tr]: every event [e] of [tr] satisfies [P] between the
    events before it (with [pre] in front) and the events after it. *)
Fixpoint each (P : list event -> event -> list event -> Prop)
    (pre tr : list event) : Prop :=
  match tr with
  | [] => True
  | e :: post => P pre e post /\ each P (pre ++ [e]) post
  end.

(** After these events the run is out of fuel, or its next call is the
    read of a record, or the write of [buf]. *)
Definition next_read (c : option Z) (post : list event) : Prop :=
  (c = None /\ post = []) \/
  (exists o post', post = EvRead event_size o :: post').

Definition next_write (c : option Z) (buf : list byte) (post : list event)
    : Prop :=
  (c = None /\ post = []) \/
  (exists o post', post = EvWrite buf o :: post').

(** Every read asks for a whole record, with the streams settled; what
    comes after it is decided by its result. *)
Definition at_read (c : option Z) (pre : list event) (e : event)
    (post : list event) : Prop :=
  match e with
  | EvRead count o =>
      count = event_size /\ settled pre /\
      match o with
      | RdBytes data =>
          if Z.of_nat (List.length data) =? 0 then
            c = Some 0 /\ post = []
          else if Z.of_nat (List.length data) <? event_size then
            c = Some 1 /\
            post = [EvFprintf (partial_read_line (Z.of_nat (List.length data)))]
          else
            exists o' post',
              post = EvFprintf (read_event_line data) :: EvWrite data o' :: post'
      | RdErr e =>
          if e =? EINTR then
            (c = None /\ post = []) \/
            (exists o' post', post = EvRead event_size o' :: post')
          else
            c = Some 1 /\ post = [EvPerror "Error reading from stdin" e]
      end
  | _ => True
  end.

(** What follows the write of line 39, by its result. *)
Definition after_first_write (c : option Z) (r : list byte)
    (o : write_outcome) (post : list event) : Prop :=
  match o with
  | WrBytes n =>
      if Z.of_nat n <? event_size then
        c = Some 1 /\ post = [EvFprintf (partial_write_line (Z.of_nat n))]
      else next_read c post
  | WrErr e =>
      if e =? EPIPE then
        c = Some 0 /\ post = [EvFprintf broken_pipe_line]
      else if e =? EINTR then next_write c r post
      else c = Some 1 /\ post = [EvPerror "Error writing to stdout" e]
  end.

(** What follows the write of line 52 at [total_written = t], by its
    result. *)
Definition after_retry_write (c : option Z) (r : list byte) (t : Z)
    (o : write_outcome) (post : list event) : Prop :=
  match o with
  | WrBytes n =>
      (n <= List.length (rest r t))%nat /\
      if t + Z.of_nat n <? event_size then
        next_write c (rest r (t + Z.of_nat n)) post
      else next_read c post
  | WrErr e =>
      if e =? EINTR then next_write c (rest r t) post
      else if e =? EPIPE then
        c = Some 0 /\ post = [EvFprintf broken_pipe_retry_line]
      else
        c = Some 1 /\
        post = [EvPerror "Error writing to stdout during retry" e]
  end.

(** Every write offers the bytes of the last record read, [r], from some
    offset [t] on, when the output stream holds the records read before [r]
    and the first [t] bytes of [r].  It is either the write of line 39,
    right after the read and the log line of [r], with [t = 0]; or the
    write of line 52, right after another write. *)
Definition at_write (c : option Z) (pre : list event) (e : event)
    (post : list event) : Prop :=
  match e with
  | EvWrite buf o =>
      exists done r t,
        well_formed r /\ 0 <= t < event_size /\ buf = rest r t /\
        records_of pre = done ++ [r] /\
        stdout_of pre = List.concat done ++ firstn (Z.to_nat t) r /\
        (((exists pre0, pre = pre0 ++ opening r /\ settled pre0) /\
          t = 0 /\ after_first_write c r o post)
         \/
         ((exists pre0 buf' o', pre = pre0 ++ [EvWrite buf' o']) /\
          after_retry_write c r t o post))
  | _ => True
  end.

(** How the end of the inner loop decides the rest of the run. *)
Definition after_retry (c' : ctl) (c : option Z) (evs : list event) : Prop :=
  match c' with
  | Running => c = None /\ evs = []
  | Fallthrough => next_read c evs
  | GotoEndLoop => c = Some 0 /\ evs = []
  | Return status => c = Some status /\ evs = []
  end.

(** The faults that end the run with a failure: a read error other than
    EINTR, a short read, a write error other than EINTR and EPIPE, and a
    short count from a write that was not classified as interrupted (the
    write of line 39, which follows the log line of the record). *)
Definition fatal_fault (pre : list event) (e : event) : Prop :=
  match e with
  | EvRead _ (RdErr n) => n <> EINTR
  | EvRead _ (RdBytes data) => 0 < Z.of_nat (List.length data) < event_size
  | EvWrite _ (WrErr n) => n <> EINTR /\ n <> EPIPE
  | EvWrite _ (WrBytes n) =>
      Z.of_nat n < event_size /\
      exists pre0 line, pre = pre0 ++ [EvFprintf line]
  | _ => False
  end.

(** [d] is the diagnostic of the program for the fault [e]. *)
Definition describes (e d : event) : Prop :=
  match e with
  | EvRead _ (RdErr n) => d = EvPerror "Error reading from stdin" n
  | EvRead _ (RdBytes data) =>
      d = EvFprintf (partial_read_line (Z.of_nat (List.length data)))
  | EvWrite _ (WrErr n) =>
      d = EvPerror "Error writing to stdout" n \/
      d = EvPerror "Error writing to stdout during retry" n
  | EvWrite _ (WrBytes n) => d = EvFprintf (partial_write_line (Z.of_nat n))
  | _ => False
  end.

(** ** Sample data *)

Definition sample_event : input_event :=
  {| tv_sec := 1700000000; tv_usec := 42; type := 1; code := 30;
     value := -1 |}.

Definition sample : list byte := encode sample_event.

Definition sample_event' : input_event :=
  {| tv_sec := 1700000001; tv_usec := 999999; type := 3; code := 0;
     value := 127 |}.

Definition sample' : list byte := encode sample_event'.

(** A short read after one record. *)
Definition short_read_world : world :=
  {| rd := fun i => nth i [RdBytes sample; RdBytes (firstn 7 sample')]
                          (RdBytes []);
     wr := sink [] |}.

(** The peer closes the stream after one record. *)
Definition broken_pipe_world : world :=
  {| rd := feed [sample; sample'; sample];
     wr := sink [full_write; WrErr EPIPE] |}.

(** One record is forwarded; the first write of the next one is interrupted,
    and the writes of the inner loop meet a short count, another
    interruption and an empty count before the stream takes the rest. *)
Definition resumed_world : world :=
  interrupting [sample'] sample
    [WrBytes 10; WrErr EINTR; WrBytes 0; WrBytes 5].

(** The first write of the second record is cut short. *)
Definition short_write_world : world :=
  {| rd := feed [sample; sample']; wr := sink [full_write; WrBytes 10] |}.

(** The second read fails with EIO. *)
Definition read_error_world : world :=
  {| rd := fun i => nth i [RdBytes sample; RdErr 5] (RdBytes []);
     wr := sink [] |}.

(** An output stream that takes five bytes at a time. *)
Definition trickle : world :=
  {| rd := feed [sample]; wr := fun _ => WrBytes 5 |}.

(** An output stream on which every write is interrupted. *)
Definition storm : world :=
  {| rd := feed [sample]; wr := fun _ => WrErr EINTR |}.

(** Signals interrupt the first read, the first write and a write of the
    inner loop. *)
Definition signals : world :=
  {| rd := fun i => nth i [RdErr EINTR; RdBytes sample] (RdBytes []);
     wr := sink [WrErr EINTR; WrBytes 10; WrErr EINTR] |}.

(** ** How a run ends, and what it reports *)

(** The last calls of a run that has exited with [status]: the read that
    met the end of the input, or a write that failed with EPIPE and the
    note about it, both with status 0; or a fatal fault and its diagnostic,
    with status 1. *)
Definition ended_by (tr : list event) (status : Z) : Prop :=
  (status = 0 /\ exists pre, tr = pre ++ [EvRead event_size (RdBytes [])]) \/
  (status = 0 /\ exists pre buf note,
     tr = pre ++ [EvWrite buf (WrErr EPIPE); EvFprintf note] /\
     (note = broken_pipe_line \/ note = broken_pipe_retry_line)) \/
  (status = 1 /\ exists pre e d,
     tr = pre ++ [e; d] /\ fatal_fault pre e /\ describes e d).

(** The log lines of the records read in full. *)
Definition log_lines (tr : list event) : list event :=
  map (fun r => EvFprintf (read_event_line r)) (records_of tr).

(** The diagnostics of a run are the log lines of the records read in
    full and, when the run has ended otherwise than at the end of the
    input, one more line, which is its last call. *)
Definition diagnosed (c : option Z) (tr : list event) : Prop :=
  exists tail,
    stderr_of tr = log_lines tr ++ tail /\
    ((tail = [] /\
      (c = None \/ exists pre, tr = pre ++ [EvRead event_size (RdBytes [])]))
     \/
     (exists pre d status, tail = [d] /\ tr = pre ++ [d] /\ c = Some status)).

(** A write never reports more bytes than it was offered. *)
Definition within_offer (e : event) : Prop :=
  match e with
  | EvWrite buf (WrBytes n) => (n <= List.length buf)%nat
  | _ => True
  end.

(** The two runs have made the same calls with the same results. *)
Definition same_calls (st st' : state) : Prop :=
  reads st = reads st' /\ writes st = writes st' /\ trace st = trace st'.

(** ** Streams disturbed by signals only *)

(** The records that the reads number [k] to [k + n - 1] deliver. *)
Definition delivered (w : world) (k n : nat) : list (list byte) :=
  flat_map (fun i =>
    match rd w i with
    | RdBytes d => [d]
    | RdErr _ => []
    end) (seq k n).

(** A read that returns a whole record unless a signal interrupts it. *)
Definition whole_or_interrupted (o : read_outcome) : Prop :=
  match o with
  | RdBytes d => well_formed d
  | RdErr e => e = EINTR
  end.

(** A write that takes a whole record unless a signal interrupts it. *)
Definition full_or_interrupted (o : write_outcome) : Prop :=
  match o with
  | WrBytes n => (Z.to_nat event_size <= n)%nat
  | WrErr e => e = EINTR
  end.

(** Signals interrupt reads and writes again and again, and nothing else
    goes wrong. *)
Definition signalled : world :=
  {| rd := fun i =>
       nth i [RdErr EINTR; RdBytes sample; RdErr EINTR; RdErr EINTR;
              RdBytes sample'] (RdBytes []);
     wr := sink [WrErr EINTR; WrErr EINTR; full_write; WrErr EINTR] |}.

(** An input stream on which every read is interrupted. *)
Definition read_storm : world :=
  {| rd := fun _ => RdErr EINTR; wr := sink [] |}.

(** * Lemmas *)

#[local] Hint Constructors retry_trace main_trace : core.

(** Case analysis on the comparisons of a goal. *)
Ltac size_cases :=
  repeat match goal with
  | |- context [?a =? ?b] => destruct (Z.eqb_spec a b)
  | |- context [?a <? ?b] => destruct (Z.ltb_spec a b)
  end.

(** ** The buffer *)

Lemma to_size_t_small (z : Z) : 0 <= z <= event_size -> to_size_t z = z.
Proof.
  intros H. unfold to_size_t. apply Z.mod_small.
  unfold event_size in H. lia.
Qed.

(** The bytes offered by [write(1, (char* )&ev + t, event_size - t)] when
    the buffer starts with the record [r]. *)
Lemma offered_bytes (r tl : list byte) (t : Z) :
  Z.of_nat (List.length r) = event_size -> 0 <= t <= event_size ->
  firstn (Z.to_nat (to_size_t (event_size - t)))
         (skipn (Z.to_nat t) (r ++ tl)) = rest r t.
Proof.
  intros Hr Ht. unfold rest.
  rewrite to_size_t_small by lia.
  rewrite skipn_app.
  replace (Z.to_nat t - List.length r)%nat with 0%nat by lia.
  rewrite skipn_O, firstn_app.
  replace (Z.to_nat (event_size - t) - List.length (skipn (Z.to_nat t) r))%nat
    with 0%nat by (rewrite length_skipn; lia).
  rewrite firstn_O, app_nil_r.
  apply firstn_all2. rewrite length_skipn. lia.
Qed.

Lemma rest_0 (r : list byte) : rest r 0 = r.
Proof. reflexivity. Qed.

Lemma rest_length (r : list byte) (t : Z) :
  Z.of_nat (List.length r) = event_size -> 0 <= t <= event_size ->
  Z.of_nat (List.length (rest r t)) = event_size - t.
Proof. intros Hr Ht. unfold rest. rewrite length_skipn. lia. Qed.

(** The log line only looks at the record. *)
Lemma field_app (off len : nat) (r tl : list byte) :
  (off + len <= List.length r)%nat ->
  field off len (r ++ tl) = field off len r.
Proof.
  intros H. unfold field. f_equal.
  rewrite skipn_app, firstn_app.
  replace (len - List.length (skipn off r))%nat with 0%nat
    by (rewrite length_skipn; lia).
  rewrite firstn_O, app_nil_r. reflexivity.
Qed.

Lemma read_event_line_app (r tl : list byte) :
  Z.of_nat (List.length r) = event_size ->
  read_event_line (r ++ tl) = read_event_line r.
Proof.
  intros H. unfold event_size in H.
  unfold read_event_line, decode. rewrite !field_app by lia. reflexivity.
Qed.

(** ** The program only makes traces of that shape *)

Lemma write_retry_sound (w : world) (r tl : list byte) :
  Z.of_nat (List.length r) = event_size ->
  forall fuel st t c st',
    ev st = r ++ tl -> 0 <= t <= event_size ->
    write_retry fuel w st t = (c, st') ->
    exists evs,
      trace st' = trace st ++ evs /\ retry_trace r t evs c /\
      ev st' = ev st /\ reads st' = reads st.
Proof.
  intros Hr. induction fuel as [|fuel IH]; intros st t c st' Hev Ht Hrun.
  - cbn in Hrun. destruct (t <? event_size) eqn:Hlt;
      inversion Hrun; subst; exists []; rewrite app_nil_r;
      repeat split; auto; constructor; lia.
  - cbn [write_retry] in Hrun.
    destruct (t <? event_size) eqn:Hlt.
    2:{ inversion Hrun; subst. exists []. rewrite app_nil_r.
        repeat split; auto. constructor. lia. }
    apply Z.ltb_lt in Hlt.
    unfold sys_write in Hrun. rewrite Hev, offered_bytes in Hrun by lia.
    destruct (wr w (writes st)) as [n|e].
    + (* some bytes taken *)
      set (sent := firstn n (rest r t)) in *.
      assert (Hsent : (List.length sent <= List.length (rest r t))%nat)
        by (unfold sent; rewrite length_firstn; lia).
      pose proof (rest_length r t Hr ltac:(lia)) as Hrest.
      destruct (Z.of_nat (List.length sent) <? 0) eqn:Hneg;
        [apply Z.ltb_lt in Hneg; lia|].
      apply IH in Hrun; cbn [ev]; auto; try lia.
      destruct Hrun as (evs & Htr & Hshape & Hev' & Hrd).
      cbn [trace ev reads] in *.
      exists (EvWrite (rest r t) (WrBytes (List.length sent)) :: evs).
      rewrite Htr, <- app_assoc. repeat split; auto; try congruence.
    + (* the write failed *)
      cbn [errno] in Hrun. change (-1 <? 0) with true in Hrun. cbn iota in Hrun.
      destruct (e =? EINTR) eqn:He1.
      * apply Z.eqb_eq in He1. subst e.
        apply IH in Hrun; cbn [ev]; auto.
        destruct Hrun as (evs & Htr & Hshape & Hev' & Hrd).
        cbn [trace ev reads] in *.
        exists (EvWrite (rest r t) (WrErr EINTR) :: evs).
        rewrite Htr, <- app_assoc. repeat split; auto; try congruence.
      * apply Z.eqb_neq in He1.
        destruct (e =? EPIPE) eqn:He2.
        -- apply Z.eqb_eq in He2. subst e. inversion Hrun; subst.
           cbn. rewrite <- app_assoc. cbn [app]. eexists. repeat split; eauto; try congruence.
        -- apply Z.eqb_neq in He2. inversion Hrun; subst.
           cbn. rewrite <- app_assoc. cbn [app]. eexists. repeat split; eauto; try congruence.
Qed.

Lemma offered_record (r tl : list byte) :
  Z.of_nat (List.length r) = event_size ->
  firstn (Z.to_nat event_size) (skipn (Z.to_nat 0) (r ++ tl)) = r.
Proof.
  intros Hr. cbn [Z.to_nat skipn]. rewrite firstn_app.
  replace (Z.to_nat event_size - List.length r)%nat with 0%nat by lia.
  rewrite firstn_O, app_nil_r. apply firstn_all2. lia.
Qed.

Lemma length_0_nil {A : Type} (l : list A) :
  Z.of_nat (List.length l) = 0 -> l = [].
Proof. destruct l; cbn [List.length]; [reflexivity | lia]. Qed.

Lemma main_loop_sound (w : world) :
  forall fuel st c st',
    main_loop fuel w st = (c, st') ->
    exists evs, trace st' = trace st ++ evs /\ main_trace evs c.
Proof.
  assert (Hes : event_size = 24) by reflexivity.
  induction fuel as [|fuel IH]; intros st c st' Hrun.
  { inversion Hrun; subst. exists []. rewrite app_nil_r. auto. }
  cbn [main_loop] in Hrun. unfold sys_read in Hrun.
  destruct (rd w (reads st)) as [data|e].
  - (* the read returned a count *)
    set (got := firstn (Z.to_nat event_size) data) in *.
    assert (Hgot : 0 <= Z.of_nat (List.length got) <= event_size).
    { unfold got. rewrite length_firstn. lia. }
    destruct (Z.of_nat (List.length got) =? 0) eqn:H0.
    { apply Z.eqb_eq in H0. apply length_0_nil in H0.
      inversion Hrun; subst. cbn [trace]. rewrite H0. eauto. }
    apply Z.eqb_neq in H0.
    destruct (Z.of_nat (List.length got) <? 0) eqn:Hneg;
      [apply Z.ltb_lt in Hneg; lia|].
    rewrite to_size_t_small in Hrun by lia.
    destruct (Z.of_nat (List.length got) <? event_size) eqn:Hshort.
    { apply Z.ltb_lt in Hshort. inversion Hrun; subst.
      unfold fprintf_stderr, perror, record_event; cbn [trace errno]. rewrite <- app_assoc. cbn [app]. eexists. split; eauto.
      constructor. lia. }
    apply Z.ltb_ge in Hshort.
    assert (Hr : Z.of_nat (List.length got) = event_size) by lia.
    cbn [ev] in Hrun. rewrite read_event_line_app in Hrun by assumption.
    unfold sys_write, fprintf_stderr, record_event in Hrun.
    cbn [ev errno reads writes trace] in Hrun.
    rewrite offered_record in Hrun by assumption.
    destruct (wr w (writes st)) as [n|e].
    + (* the write returned a count *)
      set (sent := firstn n got) in *.
      assert (Hsent : (List.length sent <= List.length got)%nat)
        by (unfold sent; rewrite length_firstn; lia).
      destruct (Z.of_nat (List.length sent) <? 0) eqn:Hneg';
        [apply Z.ltb_lt in Hneg'; lia|].
      rewrite to_size_t_small in Hrun by lia.
      destruct (Z.of_nat (List.length sent) <? event_size) eqn:Hshort'.
      * apply Z.ltb_lt in Hshort'. inversion Hrun; subst.
        unfold fprintf_stderr, record_event; cbn [trace].
        rewrite <- !app_assoc. cbn [app]. eexists. split; eauto.
        apply (MT_write_short got (List.length sent)); auto. lia.
      * apply Z.ltb_ge in Hshort'.
        assert (Hall : List.length sent = List.length got) by lia.
        apply IH in Hrun. destruct Hrun as (evs & Htr & Hshape).
        cbn [trace] in Htr. rewrite Hall in Htr.
        exists (opening got ++ EvWrite got (WrBytes (List.length got)) :: evs).
        rewrite Htr, <- !app_assoc. cbn [app opening]. split; auto.
        apply (MT_forward got evs c); auto.
    + (* the write failed *)
      change (-1 <? 0) with true in Hrun. cbn iota in Hrun.
      cbn [errno] in Hrun.
      destruct (e =? EPIPE) eqn:He1.
      { apply Z.eqb_eq in He1. subst e. inversion Hrun; subst.
        unfold fprintf_stderr, record_event; cbn [trace].
        rewrite <- !app_assoc. cbn [app]. eexists. split; eauto.
        apply (MT_write_epipe got); auto. }
      apply Z.eqb_neq in He1.
      destruct (e =? EINTR) eqn:He2.
      2:{ apply Z.eqb_neq in He2. inversion Hrun; subst.
          unfold fprintf_stderr, perror, record_event; cbn [trace errno].
          rewrite <- !app_assoc. cbn [app]. eexists. split; eauto.
          apply (MT_write_error got e); auto. }
      apply Z.eqb_eq in He2. subst e.
      match type of Hrun with
      | context [write_retry fuel w ?s 0] =>
          destruct (write_retry fuel w s 0) as [c' st4] eqn:Hretry
      end.
      eapply (write_retry_sound w got _ Hr) in Hretry;
        [|cbn [ev]; reflexivity | unfold event_size; lia].
      destruct Hretry as (ws & Htr & Hshape & _ & _).
      cbn [trace] in Htr. rewrite <- !app_assoc in Htr. cbn [app] in Htr.
      destruct c' as [| | |status].
      * inversion Hrun; subst. eexists. split; [exact Htr|].
        apply (MT_retry_running got ws); auto.
      * apply IH in Hrun. destruct Hrun as (evs & Htr' & Hshape').
        exists (opening got ++ EvWrite got (WrErr EINTR) :: ws ++ evs).
        rewrite Htr', Htr, <- !app_assoc. cbn [app opening]. split; auto.
        apply (MT_retry_fallthrough got ws evs c); auto.
      * inversion Hrun; subst. eexists. split; [exact Htr|].
        apply (MT_retry_goto got ws); auto.
      * inversion Hrun; subst. eexists. split; [exact Htr|].
        apply (MT_retry_return got ws); auto.
  - (* the read failed *)
    change (-1 =? 0) with false in Hrun. change (-1 <? 0) with true in Hrun.
    cbn iota in Hrun. cbn [errno] in Hrun.
    destruct (e =? EINTR) eqn:He.
    + apply Z.eqb_eq in He. subst e.
      apply IH in Hrun. destruct Hrun as (evs & Htr & Hshape).
      cbn [trace] in Htr. rewrite <- app_assoc in Htr. cbn [app] in Htr.
      eauto.
    + apply Z.eqb_neq in He. inversion Hrun; subst.
      unfold fprintf_stderr, perror, record_event; cbn [trace errno]. rewrite <- app_assoc. cbn [app]. eauto.
Qed.

(** The trace of a run from the start. *)
Lemma main_shape (fuel : nat) (w : world) (ev0 : list byte) :
  main_trace (trace (snd (main fuel w ev0))) (fst (main fuel w ev0)).
Proof.
  unfold main. destruct (main_loop fuel w (init ev0)) as [c st] eqn:Hrun.
  apply main_loop_sound in Hrun. destruct Hrun as (evs & Htr & Hshape).
  cbn [fst snd]. rewrite Htr. exact Hshape.
Qed.

(** ** More fuel *)

(** One round of each loop. *)
Lemma write_retry_step (fuel : nat) (w : world) (st : state) (t : Z) :
  write_retry (S fuel) w st t =
  if t <? event_size then
    let '(bytes_written, st1) :=
      sys_write w st t (to_size_t (event_size - t)) in
    if bytes_written <? 0 then
      if errno st1 =? EINTR then write_retry fuel w st1 t
      else if errno st1 =? EPIPE then
        (GotoEndLoop, fprintf_stderr st1 broken_pipe_retry_line)
      else (Return 1, perror st1 "Error writing to stdout during retry")
    else write_retry fuel w st1 (t + bytes_written)
  else (Fallthrough, st).
Proof. reflexivity. Qed.

Lemma main_loop_step (fuel : nat) (w : world) (st : state) :
  main_loop (S fuel) w st =
  let '(bytes_read, st1) := sys_read w st event_size in
  if bytes_read =? 0 then (Some 0, st1)
  else if bytes_read <? 0 then
    if errno st1 =? EINTR then main_loop fuel w st1
    else (Some 1, perror st1 "Error reading from stdin")
  else if to_size_t bytes_read <? event_size then
    (Some 1, fprintf_stderr st1 (partial_read_line bytes_read))
  else
    let st2 := fprintf_stderr st1 (read_event_line (ev st1)) in
    let '(bytes_written, st3) := sys_write w st2 0 event_size in
    if bytes_written <? 0 then
      if errno st3 =? EPIPE then
        (Some 0, fprintf_stderr st3 broken_pipe_line)
      else if errno st3 =? EINTR then
        match write_retry fuel w st3 0 with
        | (Running, st4) => (None, st4)
        | (Fallthrough, st4) => main_loop fuel w st4
        | (GotoEndLoop, st4) => (Some 0, st4)
        | (Return status, st4) => (Some status, st4)
        end
      else (Some 1, perror st3 "Error writing to stdout")
    else if to_size_t bytes_written <? event_size then
      (Some 1, fprintf_stderr st3 (partial_write_line bytes_written))
    else main_loop fuel w st3.
Proof. reflexivity. Qed.

(** A loop that has ended with some fuel ends in the same way with more. *)
Lemma write_retry_stable (w : world) :
  forall fuel st t c st',
    write_retry fuel w st t = (c, st') -> c <> Running ->
    write_retry (S fuel) w st t = (c, st').
Proof.
  induction fuel as [|fuel IH]; intros st t c st' Hrun Hc.
  - cbn in Hrun. rewrite write_retry_step.
    destruct (t <? event_size); [|exact Hrun].
    inversion Hrun; subst. contradiction.
  - rewrite write_retry_step in Hrun. rewrite write_retry_step.
    destruct (t <? event_size); [|exact Hrun].
    destruct (sys_write w st t (to_size_t (event_size - t))) as [bw st1].
    destruct (bw <? 0).
    + destruct (errno st1 =? EINTR); [|exact Hrun].
      apply (IH _ _ _ _ Hrun Hc).
    + apply (IH _ _ _ _ Hrun Hc).
Qed.

Lemma main_loop_stable (w : world) :
  forall fuel st status st',
    main_loop fuel w st = (Some status, st') ->
    main_loop (S fuel) w st = (Some status, st').
Proof.
  induction fuel as [|fuel IH]; intros st status st' Hrun; [discriminate|].
  rewrite main_loop_step in Hrun. rewrite main_loop_step.
  destruct (sys_read w st event_size) as [br st1].
  destruct (br =? 0); [exact Hrun|].
  destruct (br <? 0).
  { destruct (errno st1 =? EINTR); [|exact Hrun]. apply (IH _ _ _ Hrun). }
  destruct (to_size_t br <? event_size); [exact Hrun|].
  cbv zeta in Hrun |- *.
  destruct (sys_write w (fprintf_stderr st1 (read_event_line (ev st1))) 0
              event_size) as [bw st3].
  destruct (bw <? 0).
  - destruct (errno st3 =? EPIPE); [exact Hrun|].
    destruct (errno st3 =? EINTR); [|exact Hrun].
    destruct (write_retry fuel w st3 0) as [c st4] eqn:Hretry.
    destruct c as [| | |status'].
    + discriminate.
    + rewrite (write_retry_stable w _ _ _ _ _ Hretry) by discriminate.
      apply (IH _ _ _ Hrun).
    + rewrite (write_retry_stable w _ _ _ _ _ Hretry) by discriminate.
      exact Hrun.
    + rewrite (write_retry_stable w _ _ _ _ _ Hretry) by discriminate.
      exact Hrun.
  - destruct (to_size_t bw <? event_size); [exact Hrun|].
    apply (IH _ _ _ Hrun).
Qed.

(** A run of [main] that has ended keeps its exit status and its trace
    whatever fuel is added. *)
Lemma main_stable (fuel more : nat) (w : world) (ev0 : list byte)
    (status : Z) (st : state) :
  main fuel w ev0 = (Some status, st) ->
  main (more + fuel) w ev0 = (Some status, st).
Proof.
  intros Hrun. induction more as [|more IH]; [exact Hrun|].
  apply main_loop_stable. exact IH.
Qed.

Lemma main_ended (fuel : nat) (w : world) (ev0 : list byte) (status : Z) :
  fst (main fuel w ev0) = Some status ->
  forall more, main (more + fuel) w ev0 = main fuel w ev0.
Proof.
  intros Hc more. destruct (main fuel w ev0) as [c st] eqn:Hrun.
  cbn in Hc. subst c. apply main_stable. exact Hrun.
Qed.

(** ** Runs without faults *)

(** One iteration in which the read and the write both transfer the whole
    record. *)
Lemma main_loop_forward (fuel : nat) (w : world) (st : state)
    (r : list byte) (n : nat) :
  well_formed r ->
  rd w (reads st) = RdBytes r ->
  wr w (writes st) = WrBytes n -> (List.length r <= n)%nat ->
  main_loop (S fuel) w st = main_loop fuel w (forwarded st r).
Proof.
  unfold well_formed. intros Hr Hrd Hwr Hn.
  assert (Hes : event_size = 24) by reflexivity.
  cbn [main_loop]. unfold sys_read. rewrite Hrd.
  rewrite (firstn_all2 (n := Z.to_nat event_size) r) by lia.
  rewrite Hr. change (event_size =? 0) with false.
  change (event_size <? 0) with false.
  change (to_size_t event_size <? event_size) with false. cbn iota.
  cbn [ev]. rewrite read_event_line_app by assumption.
  unfold sys_write, fprintf_stderr, record_event.
  cbn [ev errno reads writes trace].
  rewrite offered_record, Hwr by assumption.
  rewrite (firstn_all2 (n := n) r) by lia.
  rewrite Hr. change (event_size <? 0) with false.
  change (to_size_t event_size <? event_size) with false. cbn iota.
  unfold forwarded, relay, opening. rewrite <- !app_assoc. reflexivity.
Qed.

Lemma forwarded_all (recs : list (list byte)) :
  forall st,
    reads (fold_left forwarded recs st) = (reads st + List.length recs)%nat /\
    writes (fold_left forwarded recs st) = (writes st + List.length recs)%nat /\
    trace (fold_left forwarded recs st) = trace st ++ flat_map relay recs.
Proof.
  induction recs as [|r recs IH]; intros st; cbn [fold_left].
  - rewrite !Nat.add_0_r, app_nil_r. auto.
  - destruct (IH (forwarded st r)) as (H1 & H2 & H3). rewrite H1, H2, H3.
    cbn [forwarded reads writes trace flat_map List.length].
    rewrite <- app_assoc. repeat split; lia.
Qed.

(** As long as the reads return the records [recs] whole and the writes
    take them whole, the loop forwards them one by one. *)
Lemma quiet_steps (w : world) :
  forall recs fuel st,
    Forall well_formed recs ->
    (forall i, (i < List.length recs)%nat ->
       rd w (reads st + i) = RdBytes (nth i recs [])) ->
    (forall i, (i < List.length recs)%nat ->
       wr w (writes st + i) = full_write) ->
    main_loop (List.length recs + fuel) w st =
    main_loop fuel w (fold_left forwarded recs st).
Proof.
  induction recs as [|r recs IH]; intros fuel st Hwf Hrd Hwr; [reflexivity|].
  apply Forall_cons_iff in Hwf. destruct Hwf as [Hr Hwf].
  cbn [List.length Nat.add fold_left].
  rewrite (main_loop_forward _ w st r (Z.to_nat event_size)); auto.
  - apply IH; [assumption | |]; intros i Hi; cbn [forwarded reads writes].
    + specialize (Hrd (S i)). rewrite Nat.add_succ_r in Hrd.
      apply Hrd. cbn [List.length]. lia.
    + specialize (Hwr (S i)). rewrite Nat.add_succ_r in Hwr.
      apply Hwr. cbn [List.length]. lia.
  - specialize (Hrd 0%nat). rewrite Nat.add_0_r in Hrd. apply Hrd.
    cbn [List.length]. lia.
  - specialize (Hwr 0%nat). rewrite Nat.add_0_r in Hwr. apply Hwr.
    cbn [List.length]. lia.
  - unfold well_formed in Hr. lia.
Qed.

(** End of file. *)
Lemma main_loop_eof (fuel : nat) (w : world) (st : state) :
  rd w (reads st) = RdBytes [] ->
  main_loop (S fuel) w st =
  (Some 0,
   {| ev := ev st; errno := errno st; reads := S (reads st);
      writes := writes st;
      trace := trace st ++ [EvRead event_size (RdBytes [])] |}).
Proof.
  intros Hrd. cbn [main_loop]. unfold sys_read. rewrite Hrd.
  rewrite firstn_nil. reflexivity.
Qed.

Lemma feed_nth (recs : list (list byte)) (i : nat) :
  feed recs i = RdBytes (nth i recs []).
Proof. unfold feed. apply (map_nth RdBytes). Qed.

Lemma feed_end (recs : list (list byte)) (i : nat) :
  (List.length recs <= i)%nat -> feed recs i = RdBytes [].
Proof. intros Hi. unfold feed. apply nth_overflow. now rewrite length_map. Qed.

Lemma stdout_of_app (a b : list event) :
  stdout_of (a ++ b) = stdout_of a ++ stdout_of b.
Proof. apply flat_map_app. Qed.

Lemma records_of_app (a b : list event) :
  records_of (a ++ b) = records_of a ++ records_of b.
Proof. apply flat_map_app. Qed.

Lemma stderr_of_app (a b : list event) :
  stderr_of (a ++ b) = stderr_of a ++ stderr_of b.
Proof. apply filter_app. Qed.

Lemma writes_of_app (a b : list event) :
  writes_of (a ++ b) = writes_of a ++ writes_of b.
Proof. apply filter_app. Qed.

Lemma stdout_of_relays (recs : list (list byte)) :
  stdout_of (flat_map relay recs) = List.concat recs.
Proof.
  induction recs as [|r recs IH]; [reflexivity|].
  cbn [flat_map List.concat]. rewrite stdout_of_app, IH.
  unfold relay, opening, stdout_of. cbn [app flat_map].
  rewrite firstn_all, app_nil_r. reflexivity.
Qed.

Lemma writes_of_relays (recs : list (list byte)) :
  writes_of (flat_map relay recs) =
  map (fun r => EvWrite r (WrBytes (List.length r))) recs.
Proof.
  induction recs as [|r recs IH]; [reflexivity|].
  cbn [flat_map map]. rewrite writes_of_app, IH. reflexivity.
Qed.

Lemma stderr_of_relays (recs : list (list byte)) :
  stderr_of (flat_map relay recs) =
  map (fun r => EvFprintf (read_event_line r)) recs.
Proof.
  induction recs as [|r recs IH]; [reflexivity|].
  cbn [flat_map map]. rewrite stderr_of_app, IH. reflexivity.
Qed.

(** The run of [main] in the quiet world. *)
Lemma quiet_main (recs : list (list byte)) (ev0 : list byte) (fuel : nat) :
  Forall well_formed recs -> (List.length recs < fuel)%nat ->
  exists st,
    main fuel (quiet recs) ev0 = (Some 0, st) /\
    trace st = flat_map relay recs ++ [EvRead event_size (RdBytes [])].
Proof.
  intros Hwf Hfuel.
  replace fuel with (List.length recs + S (fuel - S (List.length recs)))%nat
    by lia.
  unfold main. rewrite quiet_steps; [|assumption| |].
  - destruct (forwarded_all recs (init ev0)) as (Hreads & _ & Htr).
    rewrite main_loop_eof by (rewrite Hreads; apply feed_end; cbn; lia).
    eexists. split; [reflexivity|]. cbn [trace]. rewrite Htr. reflexivity.
  - intros i _. apply feed_nth.
  - intros i _. unfold quiet, sink. cbn. destruct i; reflexivity.
Qed.

(** ** Properties of every call of a trace *)

Lemma each_split (P : list event -> event -> list event -> Prop) :
  forall tr pre0, each P pre0 tr ->
  forall pre e post, tr = pre ++ e :: post -> P (pre0 ++ pre) e post.
Proof.
  induction tr as [|x tr IH]; intros pre0 Heach pre e post Heq.
  - destruct pre; discriminate.
  - destruct Heach as [Hx Hrest]. destruct pre as [|y pre].
    + inversion Heq; subst. rewrite app_nil_r. exact Hx.
    + inversion Heq; subst. specialize (IH _ Hrest pre e post eq_refl).
      rewrite <- app_assoc in IH. exact IH.
Qed.

(** Events about which [P] says nothing may be skipped. *)
Lemma each_skip (P : list event -> event -> list event -> Prop)
    (ws : list event) :
  forall pre evs,
    Forall (fun e => forall a b, P a e b) ws ->
    each P (pre ++ ws) evs -> each P pre (ws ++ evs).
Proof.
  induction ws as [|x ws IH]; intros pre evs Hws Hevs.
  - rewrite app_nil_r in Hevs. exact Hevs.
  - inversion Hws; subst. cbn [app each]. split; [auto|].
    apply IH; [assumption|]. rewrite <- app_assoc. exact Hevs.
Qed.

(** The inner loop reads nothing. *)
Lemma retry_no_read (r : list byte) (t : Z) (ws : list event) (c : ctl) :
  retry_trace r t ws c -> Forall (fun e => ~ is_read e) ws.
Proof.
  induction 1; repeat constructor; auto.
Qed.

(** The trace of a run, cut at one of its events. *)
Lemma main_each (P : option Z -> list event -> event -> list event -> Prop) :
  (forall evs c, main_trace evs c -> each (P c) [] evs) ->
  forall fuel w ev0 pre e post,
    trace (snd (main fuel w ev0)) = pre ++ e :: post ->
    P (fst (main fuel w ev0)) pre e post.
Proof.
  intros HP fuel w ev0 pre e post Heq.
  apply (each_split _ _ [] (HP _ _ (main_shape fuel w ev0)) pre e post Heq).
Qed.

(** ** What the inner loop transmits *)

Lemma firstn_then_more {A : Type} (n m : nat) (l : list A) :
  firstn n l ++ firstn m (skipn n l) = firstn (n + m) l.
Proof.
  revert l. induction n as [|n IH]; intros l; [reflexivity|].
  destruct l as [|x l]; [cbn; now rewrite firstn_nil|].
  cbn. f_equal. apply IH.
Qed.

Lemma rest_rest (r : list byte) (t : Z) (n : nat) :
  0 <= t -> rest r (t + Z.of_nat n) = skipn n (rest r t).
Proof.
  intros Ht. unfold rest. rewrite skipn_skipn. f_equal. lia.
Qed.

(** From [total_written = t] on, the inner loop transmits the bytes of the
    record from offset [t] up to some offset [k], each once and in order;
    when the loop ends normally, [k] is the end of the record. *)
Lemma retry_transmits (r : list byte) (t : Z) (ws : list event) (c : ctl) :
  well_formed r -> retry_trace r t ws c -> 0 <= t <= event_size ->
  exists k,
    t <= k <= event_size /\
    stdout_of ws = firstn (Z.to_nat (k - t)) (rest r t) /\
    (c = Fallthrough -> k = event_size).
Proof.
  intros Hr H. induction H as
    [t Hge|t Hlt|t evs c Hlt H IH|t Hlt|t e Hlt He1 He2|t n evs c Hlt Hn H IH];
    intros Ht.
  - exists t. repeat split; try lia. now rewrite Z.sub_diag.
  - exists t. repeat split; try lia; [now rewrite Z.sub_diag | discriminate].
  - destruct (IH Ht) as (k & Hk & Hout & Hend). exists k. auto.
  - exists t. repeat split; try lia; [now rewrite Z.sub_diag | discriminate].
  - exists t. repeat split; try lia; [now rewrite Z.sub_diag | discriminate].
  - pose proof (rest_length r t Hr Ht) as Hlen.
    destruct IH as (k & Hk & Hout & Hend); [lia|].
    exists k. repeat split; try lia; [|exact Hend].
    change (stdout_of (EvWrite (rest r t) (WrBytes n) :: evs))
      with (firstn n (rest r t) ++ stdout_of evs).
    rewrite Hout, rest_rest, firstn_then_more by lia.
    f_equal. lia.
Qed.

Lemma retry_completes (r : list byte) (ws : list event) :
  well_formed r -> retry_trace r 0 ws Fallthrough -> stdout_of ws = r.
Proof.
  intros Hr H.
  destruct (retry_transmits r 0 ws Fallthrough Hr H) as (k & Hk & Hout & Hend);
    [unfold event_size; lia|].
  rewrite Hout, (Hend eq_refl), rest_0. apply firstn_all2.
  unfold well_formed in Hr. lia.
Qed.

Lemma records_of_no_read (ws : list event) :
  Forall (fun e => ~ is_read e) ws -> records_of ws = [].
Proof.
  induction 1 as [|e ws He _ IH]; [reflexivity|].
  cbn [records_of flat_map]. fold (records_of ws). rewrite IH.
  destruct e; try reflexivity. contradiction He. exact I.
Qed.

(** ** The state of the streams between iterations *)

Lemma settled_nil : settled [].
Proof. split; [reflexivity | constructor]. Qed.

Lemma records_of_opening (r : list byte) :
  well_formed r -> records_of (opening r) = [r].
Proof.
  unfold well_formed. intros Hr. cbn. rewrite Hr. reflexivity.
Qed.

Lemma settled_read_eintr (pre : list event) (count : Z) (e : Z) :
  settled pre -> settled (pre ++ [EvRead count (RdErr e)]).
Proof.
  intros [Hout Hwhole]. split.
  - rewrite stdout_of_app, records_of_app. cbn. now rewrite !app_nil_r.
  - apply Forall_app. split; [assumption | repeat constructor].
Qed.

(** An iteration that ends with the whole record transmitted by the calls
    [ws] leaves the streams settled. *)
Lemma settled_iteration (pre ws : list event) (r : list byte) :
  well_formed r -> settled pre ->
  Forall (fun e => ~ is_read e) ws -> stdout_of ws = r ->
  settled (pre ++ opening r ++ ws).
Proof.
  intros Hr [Hout Hwhole] Hws Hsent. split.
  - rewrite !stdout_of_app, !records_of_app, records_of_opening by assumption.
    rewrite (records_of_no_read ws Hws), Hout, Hsent, app_nil_r, concat_app.
    cbn. now rewrite app_nil_r.
  - apply Forall_app. split; [assumption|].
    apply Forall_app. split; [repeat constructor; assumption|].
    eapply Forall_impl; [|exact Hws].
    intros [] Hno; auto. contradiction Hno. exact I.
Qed.

Lemma settled_forward (pre : list event) (r : list byte) :
  well_formed r -> settled pre ->
  settled (pre ++ opening r ++ [EvWrite r (WrBytes (List.length r))]).
Proof.
  intros Hr Hpre. apply settled_iteration; [assumption | assumption | | ].
  - repeat constructor. auto.
  - cbn. rewrite firstn_all. apply app_nil_r.
Qed.

Lemma settled_retry (pre ws : list event) (r : list byte) :
  well_formed r -> settled pre -> retry_trace r 0 ws Fallthrough ->
  settled (pre ++ opening r ++ EvWrite r (WrErr EINTR) :: ws).
Proof.
  intros Hr Hpre Hws.
  apply (settled_iteration pre (EvWrite r (WrErr EINTR) :: ws));
    [assumption | assumption | | ].
  - constructor; [auto | exact (retry_no_read _ _ _ _ Hws)].
  - change (stdout_of (EvWrite r (WrErr EINTR) :: ws)) with (stdout_of ws).
    apply retry_completes; assumption.
Qed.

(** ** What happens at a read *)

(** A trace of the outer loop is empty (out of fuel at the top of the
    loop) or starts with the read of a whole record. *)
Lemma main_trace_head (evs : list event) (c : option Z) :
  main_trace evs c ->
  (c = None /\ evs = []) \/
  (exists o post, evs = EvRead event_size o :: post).
Proof.
  destruct 1; cbn [opening app]; eauto.
Qed.

Lemma retry_skip_reads (c : option Z) (r : list byte) (t : Z)
    (ws : list event) (c' : ctl) :
  retry_trace r t ws c' ->
  Forall (fun e => forall a b, at_read c a e b) ws.
Proof.
  intros H. eapply Forall_impl; [|exact (retry_no_read _ _ _ _ H)].
  intros [] Hno; cbn; auto. contradiction Hno. exact I.
Qed.

Lemma read_each (evs : list event) (c : option Z) :
  main_trace evs c -> forall pre, settled pre -> each (at_read c) pre evs.
Proof.
  assert (Hes : event_size = 24) by reflexivity.
  induction 1 as
    [ | |evs c H IH|e He|d Hd|r evs c Hr H IH|r n Hr Hn|r Hr|r e Hr He1 He2
    |r ws Hr Hws|r ws evs c Hr Hws H IH|r ws Hr Hws|r ws status Hr Hws];
    intros pre Hpre; unfold well_formed in *;
    cbn [each app opening at_read List.length];
    try exact I;
    (split; [split; [reflexivity | split; [assumption|]]
            | repeat (split; [exact I|])]);
    try exact I.
  - change (Z.of_nat 0 =? 0) with true. cbn iota. auto.
  - change (EINTR =? EINTR) with true. cbn iota.
    apply (main_trace_head _ _ H).
  - apply IH, settled_read_eintr, Hpre.
  - size_cases; [contradiction | auto].
  - size_cases; try lia. auto.
  - size_cases; try lia. eauto.
  - rewrite <- !app_assoc. cbn [app]. apply IH.
    apply (settled_forward pre r Hr Hpre).
  - size_cases; try lia. eauto.
  - size_cases; try lia. eauto.
  - size_cases; try lia. eauto.
  - size_cases; try lia. eauto.
  - rewrite <- (app_nil_r ws). apply each_skip; [|exact I].
    apply (retry_skip_reads _ _ _ _ _ Hws).
  - size_cases; try lia. eauto.
  - apply each_skip; [apply (retry_skip_reads _ _ _ _ _ Hws)|].
    rewrite <- !app_assoc. cbn [app]. apply IH.
    apply (settled_retry pre ws r Hr Hpre Hws).
  - size_cases; try lia. eauto.
  - rewrite <- (app_nil_r ws). apply each_skip; [|exact I].
    apply (retry_skip_reads _ _ _ _ _ Hws).
  - size_cases; try lia. eauto.
  - rewrite <- (app_nil_r ws). apply each_skip; [|exact I].
    apply (retry_skip_reads _ _ _ _ _ Hws).
Qed.

Lemma main_at_read (fuel : nat) (w : world) (ev0 : list byte)
    (pre post : list event) (e : event) :
  trace (snd (main fuel w ev0)) = pre ++ e :: post ->
  at_read (fst (main fuel w ev0)) pre e post.
Proof.
  apply (main_each at_read).
  intros evs c H. apply (read_each evs c H). apply settled_nil.
Qed.

(** ** What happens at a write *)

Lemma retry_trace_head (r : list byte) (t : Z) (ws : list event) (c' : ctl) :
  retry_trace r t ws c' ->
  (t < event_size ->
   (ws = [] /\ c' = Running) \/
   (exists o ws', ws = EvWrite (rest r t) o :: ws')) /\
  (event_size <= t -> ws = [] /\ c' = Fallthrough).
Proof.
  destruct 1; split; intros; try lia; eauto.
Qed.

Lemma next_write_retry (c : option Z) (r : list byte) (t : Z)
    (ws evs : list event) (c' : ctl) :
  retry_trace r t ws c' -> t < event_size -> after_retry c' c evs ->
  next_write c (rest r t) (ws ++ evs).
Proof.
  intros H Ht Hafter.
  destruct (proj1 (retry_trace_head r t ws c' H) Ht) as [[-> ->]|(o & ws' & ->)].
  - left. exact Hafter.
  - right. cbn [app]. eauto.
Qed.

Lemma retry_each (c : option Z) (r : list byte) (done : list (list byte))
    (evs : list event) :
  well_formed r ->
  forall t ws c', retry_trace r t ws c' ->
  forall pre,
    0 <= t ->
    records_of pre = done ++ [r] ->
    stdout_of pre = List.concat done ++ firstn (Z.to_nat t) r ->
    (exists pre0 buf' o', pre = pre0 ++ [EvWrite buf' o']) ->
    after_retry c' c evs ->
    each (at_write c) (pre ++ ws) evs ->
    each (at_write c) pre (ws ++ evs).
Proof.
  intros Hr t ws c' H.
  induction H as
    [t Hge|t Hlt|t evs0 c' Hlt H IH|t Hlt|t e Hlt He1 He2
    |t n evs0 c' Hlt Hn H IH];
    intros pre Ht Hrecs Hout Hprev Hafter Hevs;
    try (rewrite app_nil_r in Hevs; exact Hevs).
  - (* EINTR *)
    cbn [app each]. split.
    + exists done, r, t. repeat (split; [assumption || lia || reflexivity|]).
      right. split; [assumption|]. cbn [after_retry_write].
      change (EINTR =? EINTR) with true. cbn iota.
      apply (next_write_retry c r t evs0 evs c'); assumption.
    + apply IH; auto.
      * rewrite records_of_app. cbn. now rewrite app_nil_r.
      * rewrite stdout_of_app. cbn. now rewrite app_nil_r.
      * eauto.
      * rewrite <- app_assoc. exact Hevs.
  - (* EPIPE *)
    destruct Hafter as [-> ->]. cbn [app each at_write]. split; [|auto].
    exists done, r, t. repeat (split; [assumption || lia || reflexivity|]).
    right. split; [assumption|]. cbn. auto.
  - (* another error *)
    destruct Hafter as [-> ->]. cbn [app each at_write]. split; [|auto].
    exists done, r, t. repeat (split; [assumption || lia || reflexivity|]).
    right. split; [assumption|]. cbn [after_retry_write].
    apply Z.eqb_neq in He1, He2. rewrite He1, He2. auto.
  - (* some bytes taken *)
    cbn [app each]. split.
    + exists done, r, t. repeat (split; [assumption || lia || reflexivity|]).
      right. split; [assumption|]. cbn [after_retry_write].
      split; [assumption|].
      destruct (Z.ltb_spec (t + Z.of_nat n) event_size) as [Hmore|Hfull].
      * apply (next_write_retry c r _ evs0 evs c'); assumption.
      * destruct (proj2 (retry_trace_head _ _ _ _ H) Hfull) as [-> ->].
        exact Hafter.
    + apply IH; auto; try lia.
      * rewrite records_of_app. cbn. now rewrite app_nil_r.
      * rewrite stdout_of_app. cbn [stdout_of flat_map]. rewrite app_nil_r.
        rewrite Hout, <- app_assoc. f_equal.
        unfold rest. rewrite firstn_then_more. f_equal. lia.
      * eauto.
      * rewrite <- app_assoc. exact Hevs.
Qed.

Lemma at_first_write (c : option Z) (pre : list event) (r : list byte)
    (o : write_outcome) (post : list event) :
  settled pre -> well_formed r -> after_first_write c r o post ->
  at_write c
    ((pre ++ [EvRead event_size (RdBytes r)]) ++
     [EvFprintf (read_event_line r)])
    (EvWrite r o) post.
Proof.
  intros Hpre Hr Hafter. rewrite <- app_assoc.
  change ([EvRead event_size (RdBytes r)] ++ [EvFprintf (read_event_line r)])
    with (opening r).
  exists (records_of pre), r, 0.
  split; [assumption|]. split; [unfold event_size; lia|].
  split; [reflexivity|]. split; [|split].
  - rewrite records_of_app, records_of_opening by assumption. reflexivity.
  - rewrite stdout_of_app. cbn. rewrite !app_nil_r. apply Hpre.
  - left. eauto.
Qed.

Lemma write_each (evs : list event) (c : option Z) :
  main_trace evs c -> forall pre, settled pre -> each (at_write c) pre evs.
Proof.
  assert (Hes : event_size = 24) by reflexivity.
  assert (Hretry : forall pre r ws c' evs c,
    settled pre -> well_formed r -> retry_trace r 0 ws c' ->
    after_retry c' c evs ->
    each (at_write c)
      (pre ++ opening r ++ EvWrite r (WrErr EINTR) :: ws) evs ->
    at_write c
      ((pre ++ [EvRead event_size (RdBytes r)]) ++
       [EvFprintf (read_event_line r)])
      (EvWrite r (WrErr EINTR)) (ws ++ evs) /\
    each (at_write c)
      (((pre ++ [EvRead event_size (RdBytes r)]) ++
        [EvFprintf (read_event_line r)]) ++ [EvWrite r (WrErr EINTR)])
      (ws ++ evs)).
  { clear evs c. intros pre r ws c' evs c Hpre Hr Hws Hafter Hevs. split.
    - apply at_first_write; auto. cbn.
      apply (next_write_retry c r 0 ws evs c'); auto. lia.
    - apply (retry_each c r (records_of pre) evs Hr 0 ws c' Hws); auto.
      + lia.
      + rewrite !records_of_app. cbn. unfold well_formed in Hr. rewrite Hr.
        cbn. now rewrite !app_nil_r.
      + rewrite !stdout_of_app. cbn. rewrite !app_nil_r. apply Hpre.
      + eauto.
      + rewrite <- !app_assoc. exact Hevs. }
  induction 1 as
    [ | |evs c H IH|e He|d Hd|r evs c Hr H IH|r n Hr Hn|r Hr|r e Hr He1 He2
    |r ws Hr Hws|r ws evs c Hr Hws H IH|r ws Hr Hws|r ws status Hr Hws];
    intros pre Hpre; cbn [each app opening at_write];
    try exact I; repeat (split; [exact I|]); try exact I.
  - apply IH, settled_read_eintr, Hpre.
  - split.
    + apply at_first_write; auto. cbn [after_first_write].
      unfold well_formed in Hr. rewrite Hr, Z.ltb_irrefl.
      apply (main_trace_head _ _ H).
    + rewrite <- !app_assoc. cbn [app]. apply IH.
      apply (settled_forward pre r Hr Hpre).
  - split; [|auto]. apply at_first_write; auto. cbn [after_first_write].
    unfold well_formed in Hr.
    destruct (Z.ltb_spec (Z.of_nat n) event_size); [auto | lia].
  - split; [|auto]. apply at_first_write; auto. cbn. auto.
  - split; [|auto]. apply at_first_write; auto. cbn [after_first_write].
    apply Z.eqb_neq in He1, He2. rewrite He1, He2. auto.
  - rewrite <- (app_nil_r ws).
    apply (Hretry pre r ws Running [] None); cbn; auto.
  - apply (Hretry pre r ws Fallthrough evs c); auto.
    + apply (main_trace_head _ _ H).
    + apply IH. apply (settled_retry pre ws r Hr Hpre Hws).
  - rewrite <- (app_nil_r ws).
    apply (Hretry pre r ws GotoEndLoop [] (Some 0)); cbn; auto.
  - rewrite <- (app_nil_r ws).
    apply (Hretry pre r ws (Return status) [] (Some status)); cbn; auto.
Qed.

Lemma main_at_write (fuel : nat) (w : world) (ev0 : list byte)
    (pre post : list event) (e : event) :
  trace (snd (main fuel w ev0)) = pre ++ e :: post ->
  at_write (fst (main fuel w ev0)) pre e post.
Proof.
  apply (main_each at_write).
  intros evs c H. apply (write_each evs c H). apply settled_nil.
Qed.

(** ** Interrupted writes *)

(** One iteration whose first write fails with EINTR. *)
Lemma main_loop_interrupted (fuel : nat) (w : world) (st : state)
    (r : list byte) :
  well_formed r ->
  rd w (reads st) = RdBytes r ->
  wr w (writes st) = WrErr EINTR ->
  main_loop (S fuel) w st =
  match write_retry fuel w (interrupted st r) 0 with
  | (Running, st4) => (None, st4)
  | (Fallthrough, st4) => main_loop fuel w st4
  | (GotoEndLoop, st4) => (Some 0, st4)
  | (Return status, st4) => (Some status, st4)
  end.
Proof.
  unfold well_formed. intros Hr Hrd Hwr.
  assert (Hes : event_size = 24) by reflexivity.
  cbn [main_loop]. unfold sys_read. rewrite Hrd.
  rewrite (firstn_all2 (n := Z.to_nat event_size) r) by lia.
  rewrite Hr. change (event_size =? 0) with false.
  change (event_size <? 0) with false.
  change (to_size_t event_size <? event_size) with false. cbn iota.
  cbn [ev]. rewrite read_event_line_app by assumption.
  unfold sys_write, fprintf_stderr, record_event.
  cbn [ev errno reads writes trace].
  rewrite offered_record, Hwr by assumption.
  change (-1 <? 0) with true. cbn iota. cbn [errno].
  change (EINTR =? EPIPE) with false. change (EINTR =? EINTR) with true.
  cbn iota. unfold interrupted, opening. rewrite <- !app_assoc. reflexivity.
Qed.

(** When the output stream, after the transient results [sched], takes
    everything offered, the inner loop ends normally within
    [length sched + 1] rounds. *)
Lemma write_retry_completes (w : world) (r tl : list byte) :
  well_formed r ->
  forall sched st t fuel,
    ev st = r ++ tl -> 0 <= t <= event_size ->
    (forall i, wr w (writes st + i) = nth i sched full_write) ->
    Forall transient sched ->
    (List.length sched < fuel)%nat ->
    exists st', write_retry fuel w st t = (Fallthrough, st').
Proof.
  intros Hr. assert (Hes : event_size = 24) by reflexivity.
  assert (Hdone : forall fuel st t, event_size <= t ->
            write_retry fuel w st t = (Fallthrough, st)).
  { intros fuel st t Ht. destruct fuel; cbn [write_retry];
      destruct (Z.ltb_spec t event_size); try lia; reflexivity. }
  induction sched as [|o sched IH]; intros st t fuel Hev Ht Hwr Hsched Hfuel;
    (destruct (Z.le_gt_cases event_size t) as [Hge|Hlt];
      [exists st; apply Hdone; exact Hge|]);
    (destruct fuel as [|fuel]; [cbn in Hfuel; lia|]);
    pose proof (Hwr 0%nat) as Hwr0; rewrite Nat.add_0_r in Hwr0;
    cbn [nth] in Hwr0;
    pose proof (rest_length r t Hr ltac:(lia)) as Hlen;
    cbn [write_retry]; (destruct (Z.ltb_spec t event_size); [|lia]);
    unfold sys_write; rewrite Hev, offered_bytes, Hwr0 by (assumption || lia).
  - (* the whole rest is taken *)
    unfold full_write.
    rewrite (firstn_all2 (n := Z.to_nat event_size) (rest r t)) by lia.
    destruct (Z.ltb_spec (Z.of_nat (List.length (rest r t))) 0); [lia|].
    eexists. apply Hdone. lia.
  - apply Forall_cons_iff in Hsched. destruct Hsched as [Ho Hsched'].
    destruct o as [n|e].
    + set (sent := firstn n (rest r t)).
      assert (Hsent : (List.length sent <= List.length (rest r t))%nat)
        by (unfold sent; rewrite length_firstn; lia).
      destruct (Z.ltb_spec (Z.of_nat (List.length sent)) 0); [lia|].
      apply IH; cbn [ev writes]; auto; try lia.
      * intros i. specialize (Hwr (S i)). rewrite Nat.add_succ_r in Hwr.
        exact Hwr.
      * cbn [List.length] in Hfuel. lia.
    + cbn in Ho. subst e. change (-1 <? 0) with true. cbn iota. cbn [errno].
      change (EINTR =? EINTR) with true. cbn iota.
      apply IH; cbn [ev writes]; auto; try lia.
      * intros i. specialize (Hwr (S i)). rewrite Nat.add_succ_r in Hwr.
        exact Hwr.
      * cbn [List.length] in Hfuel. lia.
Qed.

Lemma interrupting_run (before : list (list byte)) (r : list byte)
    (sched : list write_outcome) (ev0 : list byte) (fuel : nat) :
  Forall well_formed before -> well_formed r -> Forall transient sched ->
  (List.length before + List.length sched + 2 < fuel)%nat ->
  exists st,
    main fuel (interrupting before r sched) ev0 = (Some 0, st) /\
    stdout_of (trace st) = List.concat before ++ r.
Proof.
  intros Hbefore Hr Hsched Hfuel.
  set (w := interrupting before r sched).
  assert (Hwr : forall i,
            wr w (List.length before + i) =
            nth i (WrErr EINTR :: sched) full_write).
  { intros i. unfold w, interrupting, sink. cbn [wr].
    rewrite app_nth2 by (rewrite repeat_length; lia).
    rewrite repeat_length. f_equal. lia. }
  set (fuel' := (fuel - S (S (List.length before)))%nat).
  replace fuel with (List.length before + S (S fuel'))%nat
    by (unfold fuel'; lia).
  assert (Hfuel' : (List.length sched < S fuel')%nat) by (unfold fuel'; lia).
  unfold main. rewrite quiet_steps; [|assumption| |].
  2:{ intros i Hi. unfold w, interrupting. cbn [rd init reads Nat.add].
      rewrite feed_nth. f_equal. apply app_nth1. exact Hi. }
  2:{ intros i Hi. unfold w, interrupting, sink. cbn [wr init writes Nat.add].
      rewrite app_nth1 by (rewrite repeat_length; exact Hi).
      apply nth_repeat. }
  set (st1 := fold_left forwarded before (init ev0)).
  destruct (forwarded_all before (init ev0)) as (Hreads & Hwrites & Htr).
  fold st1 in Hreads, Hwrites, Htr.
  cbn [init reads writes trace Nat.add app] in Hreads, Hwrites, Htr.
  rewrite (main_loop_interrupted (S fuel') w st1 r Hr).
  2:{ rewrite Hreads. unfold w, interrupting. cbn [rd].
      rewrite feed_nth, app_nth2, Nat.sub_diag by lia. reflexivity. }
  2:{ rewrite Hwrites, <- (Nat.add_0_r (List.length before)).
      apply (Hwr 0%nat). }
  destruct (write_retry_completes w r (skipn (List.length r) (ev st1)) Hr sched
              (interrupted st1 r) 0 (S fuel')) as (st4 & Hretry);
    auto; try (unfold event_size; lia).
  { intros i. cbn [interrupted writes]. rewrite Hwrites.
    replace (S (List.length before) + i)%nat
      with (List.length before + S i)%nat by lia.
    apply (Hwr (S i)). }
  rewrite Hretry.
  destruct (write_retry_sound w r (skipn (List.length r) (ev st1)) Hr
              (S fuel') (interrupted st1 r) 0 Fallthrough st4
              eq_refl ltac:(unfold event_size; lia) Hretry)
    as (ws & Htr4 & Hshape & _ & Hreads4).
  rewrite main_loop_eof.
  2:{ rewrite Hreads4. cbn [interrupted reads]. rewrite Hreads.
      unfold w, interrupting. cbn [rd]. apply feed_end.
      rewrite length_app. cbn [List.length]. lia. }
  eexists. split; [reflexivity|]. cbn [trace].
  rewrite Htr4. cbn [interrupted trace]. rewrite Htr.
  rewrite !stdout_of_app, stdout_of_relays, (retry_completes r ws Hr Hshape).
  cbn. now rewrite !app_nil_r.
Qed.

(** ** Telling the write of line 39 from the writes of line 52 *)

(** A write that follows a log line is the write of line 39 for the record
    just logged. *)
Lemma write_after_log (fuel : nat) (w : world) (ev0 : list byte)
    (pre post : list event) (line : string) (buf : list byte)
    (o : write_outcome) :
  trace (snd (main fuel w ev0)) =
    (pre ++ [EvFprintf line]) ++ EvWrite buf o :: post ->
  well_formed buf /\ line = read_event_line buf /\
  after_first_write (fst (main fuel w ev0)) buf o post.
Proof.
  intros Htr.
  pose proof (main_at_write fuel w ev0 _ post _ Htr) as H.
  destruct H as (done & r & t & Hr & Ht & Hbuf & Hrecs & Hout & Hcases).
  destruct Hcases as [((pre0 & Hpre & _) & Ht0 & Hafter)
                     |((pre0 & buf' & o' & Hpre) & _)].
  - subst t. rewrite rest_0 in Hbuf. subst buf.
    unfold opening in Hpre.
    change [EvRead event_size (RdBytes r); EvFprintf (read_event_line r)]
      with ([EvRead event_size (RdBytes r)] ++ [EvFprintf (read_event_line r)])
      in Hpre.
    rewrite app_assoc in Hpre. apply app_inj_tail in Hpre.
    destruct Hpre as [_ Hline]. inversion Hline; subst. auto.
  - apply app_inj_tail in Hpre. destruct Hpre as [_ Hbad]. discriminate.
Qed.

(** A write that follows a write is a write of line 52. *)
Lemma write_after_write (fuel : nat) (w : world) (ev0 : list byte)
    (pre post : list event) (buf' buf : list byte) (o' o : write_outcome) :
  trace (snd (main fuel w ev0)) =
    (pre ++ [EvWrite buf' o']) ++ EvWrite buf o :: post ->
  exists done r t,
    well_formed r /\ 0 <= t < event_size /\ buf = rest r t /\
    records_of pre = done ++ [r] /\
    stdout_of (pre ++ [EvWrite buf' o']) =
      List.concat done ++ firstn (Z.to_nat t) r /\
    after_retry_write (fst (main fuel w ev0)) r t o post.
Proof.
  intros Htr.
  pose proof (main_at_write fuel w ev0 _ post _ Htr) as H.
  destruct H as (done & r & t & Hr & Ht & Hbuf & Hrecs & Hout & Hcases).
  exists done, r, t. repeat (split; [assumption|]).
  split; [|split; [exact Hout|]].
  - rewrite records_of_app in Hrecs. cbn in Hrecs.
    now rewrite app_nil_r in Hrecs.
  - destruct Hcases as [((pre0 & Hpre & _) & _)|(_ & Hafter)];
      [|exact Hafter].
    unfold opening in Hpre.
    change [EvRead event_size (RdBytes r); EvFprintf (read_event_line r)]
      with ([EvRead event_size (RdBytes r)] ++ [EvFprintf (read_event_line r)])
      in Hpre.
    rewrite app_assoc in Hpre. apply app_inj_tail in Hpre.
    destruct Hpre as [_ Hbad]. discriminate.
Qed.

(** ** No record skipped, none forwarded twice *)

Lemma settled_relayed (tr : list event) : settled tr -> relayed tr.
Proof.
  intros [Hout _]. exists (records_of tr), [], 0%nat.
  rewrite !app_nil_r. cbn. auto.
Qed.

(** Calls that transfer nothing change nothing. *)
Lemma relayed_idle (tr evs : list event) :
  relayed tr -> records_of evs = [] -> stdout_of evs = [] ->
  relayed (tr ++ evs).
Proof.
  intros (done & last & k & Hrecs & Hlast & Hout) Hr Ho.
  exists done, last, k.
  rewrite records_of_app, stdout_of_app, Hr, Ho, !app_nil_r. auto.
Qed.

(** An iteration that transmits the first [k] bytes of its record. *)
Lemma relayed_partial (pre evs : list event) (r : list byte) (k : nat) :
  settled pre -> records_of evs = [r] -> stdout_of evs = firstn k r ->
  relayed (pre ++ evs).
Proof.
  intros [Hout _] Hr Ho. exists (records_of pre), [r], k.
  rewrite records_of_app, stdout_of_app, Hr, Ho, Hout. cbn.
  rewrite app_nil_r. auto.
Qed.

Lemma relayed_main (evs : list event) (c : option Z) :
  main_trace evs c -> forall pre, settled pre -> relayed (pre ++ evs).
Proof.
  assert (Hretry : forall pre r ws c',
    settled pre -> well_formed r -> retry_trace r 0 ws c' ->
    relayed (pre ++ opening r ++ EvWrite r (WrErr EINTR) :: ws)).
  { intros pre r ws c' Hpre Hr Hws.
    destruct (retry_transmits r 0 ws c' Hr Hws) as (k & Hk & Hout & _);
      [unfold event_size; lia|].
    apply (relayed_partial pre _ r (Z.to_nat (k - 0))); [assumption | |].
    - rewrite records_of_app, records_of_opening by assumption.
      change (records_of (EvWrite r (WrErr EINTR) :: ws))
        with (records_of ws).
      now rewrite (records_of_no_read ws (retry_no_read _ _ _ _ Hws)).
    - rewrite stdout_of_app.
      change (stdout_of (EvWrite r (WrErr EINTR) :: ws)) with (stdout_of ws).
      rewrite Hout, rest_0. reflexivity. }
  induction 1 as
    [ | |evs c H IH|e He|d Hd|r evs c Hr H IH|r n Hr Hn|r Hr|r e Hr He1 He2
    |r ws Hr Hws|r ws evs c Hr Hws H IH|r ws Hr Hws|r ws status Hr Hws];
    intros pre Hpre.
  - rewrite app_nil_r. apply settled_relayed, Hpre.
  - apply relayed_idle; [apply settled_relayed, Hpre | reflexivity..].
  - change (EvRead event_size (RdErr EINTR) :: evs)
      with ([EvRead event_size (RdErr EINTR)] ++ evs).
    rewrite app_assoc. apply IH, settled_read_eintr, Hpre.
  - apply relayed_idle; [apply settled_relayed, Hpre | reflexivity..].
  - apply relayed_idle; [apply settled_relayed, Hpre | | reflexivity].
    cbn. destruct (Z.eqb_spec (Z.of_nat (List.length d)) event_size);
      [lia | reflexivity].
  - change (opening r ++ EvWrite r (WrBytes (List.length r)) :: evs)
      with ((opening r ++ [EvWrite r (WrBytes (List.length r))]) ++ evs).
    rewrite app_assoc. apply IH.
    apply (settled_forward pre r Hr Hpre).
  - apply (relayed_partial pre _ r n); [assumption | |].
    + rewrite records_of_app, records_of_opening by assumption. reflexivity.
    + cbn. now rewrite app_nil_r.
  - apply (relayed_partial pre _ r 0); [assumption | |].
    + rewrite records_of_app, records_of_opening by assumption. reflexivity.
    + reflexivity.
  - apply (relayed_partial pre _ r 0); [assumption | |].
    + rewrite records_of_app, records_of_opening by assumption. reflexivity.
    + reflexivity.
  - apply (Hretry pre r ws Running); assumption.
  - change (opening r ++ EvWrite r (WrErr EINTR) :: ws ++ evs)
      with ((opening r ++ EvWrite r (WrErr EINTR) :: ws) ++ evs).
    rewrite app_assoc. apply IH.
    apply (settled_retry pre ws r Hr Hpre Hws).
  - apply (Hretry pre r ws GotoEndLoop); assumption.
  - apply (Hretry pre r ws (Return status)); assumption.
Qed.

Lemma retry_reports (r : list byte) (t : Z) (ws : list event) (c : ctl) :
  retry_trace r t ws c -> Forall not_eintr_report ws.
Proof.
  induction 1; repeat constructor; cbn; auto.
Qed.

Lemma main_reports (evs : list event) (c : option Z) :
  main_trace evs c -> Forall not_eintr_report evs.
Proof.
  induction 1; cbn [opening app];
    repeat (apply Forall_cons; [cbn; auto|]);
    try apply Forall_app; try split; eauto using retry_reports.
Qed.

(** ** The fields of a record *)

Lemma le_bytes_length (n : nat) (z : Z) : List.length (le_bytes n z) = n.
Proof.
  revert z. induction n as [|n IH]; intros z; cbn; [|rewrite IH]; reflexivity.
Qed.

Lemma byte_of_small (z : Z) :
  0 <= z < 256 ->
  Z.of_N (Byte.to_N match Byte.of_N (Z.to_N z) with
                    | Some b => b
                    | None => x00
                    end) = z.
Proof.
  intros Hz. destruct (Byte.of_N (Z.to_N z)) as [b|] eqn:Hb.
  - apply Byte.to_of_N in Hb. rewrite Hb. lia.
  - apply Byte.of_N_None_iff in Hb. lia.
Qed.

Lemma le_unsigned_le_bytes (n : nat) (z : Z) :
  le_unsigned (le_bytes n z) = z mod 256 ^ Z.of_nat n.
Proof.
  revert z. induction n as [|n IH]; intros z.
  - cbn. now rewrite Z.mod_1_r.
  - cbn [le_bytes le_unsigned fold_right]. fold (le_unsigned (le_bytes n (z / 256))).
    rewrite IH, byte_of_small by (apply Z.mod_pos_bound; lia).
    rewrite Nat2Z.inj_succ, Z.pow_succ_r by lia.
    rewrite Z.rem_mul_r by (try apply Z.pow_pos_nonneg; lia).
    reflexivity.
Qed.

Lemma to_signed_mod (w z : Z) :
  0 < w -> - 2 ^ (w - 1) <= z < 2 ^ (w - 1) ->
  to_signed w (z mod 2 ^ w) = z.
Proof.
  intros Hw Hz. unfold to_signed.
  assert (Hpow : 2 ^ w = 2 * 2 ^ (w - 1)).
  { rewrite <- Z.pow_succ_r by lia. f_equal. lia. }
  assert (Hpos : 0 < 2 ^ (w - 1)) by (apply Z.pow_pos_nonneg; lia).
  destruct (Z.neg_nonneg_cases z) as [Hneg|Hnonneg].
  - rewrite <- (Z.mod_add z 1) by lia.
    rewrite Z.mod_small by lia.
    destruct (Z.ltb_spec (z + 1 * 2 ^ w) (2 ^ (w - 1))); lia.
  - rewrite Z.mod_small by lia.
    destruct (Z.ltb_spec z (2 ^ (w - 1))); lia.
Qed.

(** The field of [len] bytes at offset [off] of a buffer. *)
Lemma field_at (a x b : list byte) (off len : nat) :
  List.length a = off -> List.length x = len ->
  field off len (a ++ x ++ b) = le_unsigned x.
Proof.
  intros Ha Hx. unfold field. f_equal.
  rewrite skipn_app, <- Ha, skipn_all, Nat.sub_diag, skipn_O, app_nil_l.
  rewrite firstn_app, <- Hx, firstn_all, Nat.sub_diag, firstn_O.
  apply app_nil_r.
Qed.

Lemma encode_well_formed (e : input_event) : well_formed (encode e).
Proof.
  unfold well_formed, encode. rewrite !length_app, !le_bytes_length.
  reflexivity.
Qed.

(** Reading the fields of the bytes of a record gives the record back. *)
Lemma decode_encode (e : input_event) : in_range e -> decode (encode e) = e.
Proof.
  intros (Hsec & Husec & Htype & Hcode & Hvalue).
  destruct e as [sec usec ty co va]. cbn [tv_sec tv_usec type code value] in *.
  unfold decode, encode. cbn [tv_sec tv_usec type code value].
  set (b1 := le_bytes 8 sec). set (b2 := le_bytes 8 usec).
  set (b3 := le_bytes 2 ty). set (b4 := le_bytes 2 co).
  set (b5 := le_bytes 4 va).
  assert (H1 : field 0 8 (b1 ++ b2 ++ b3 ++ b4 ++ b5) = le_unsigned b1).
  { apply (field_at [] b1); [reflexivity | apply le_bytes_length]. }
  assert (H2 : field 8 8 (b1 ++ b2 ++ b3 ++ b4 ++ b5) = le_unsigned b2).
  { apply (field_at b1 b2); apply le_bytes_length. }
  assert (H3 : field 16 2 (b1 ++ b2 ++ b3 ++ b4 ++ b5) = le_unsigned b3).
  { rewrite (app_assoc b1 b2). apply (field_at (b1 ++ b2) b3);
      [rewrite length_app; unfold b1, b2; rewrite !le_bytes_length; reflexivity
      |apply le_bytes_length]. }
  assert (H4 : field 18 2 (b1 ++ b2 ++ b3 ++ b4 ++ b5) = le_unsigned b4).
  { rewrite (app_assoc b1 b2), (app_assoc (b1 ++ b2) b3).
    apply (field_at ((b1 ++ b2) ++ b3) b4);
      [rewrite !length_app; unfold b1, b2, b3; rewrite !le_bytes_length;
       reflexivity
      |apply le_bytes_length]. }
  assert (H5 : field 20 4 (b1 ++ b2 ++ b3 ++ b4 ++ b5) = le_unsigned b5).
  { rewrite (app_assoc b1 b2), (app_assoc (b1 ++ b2) b3),
      (app_assoc ((b1 ++ b2) ++ b3) b4), <- (app_nil_r b5).
    apply (field_at (((b1 ++ b2) ++ b3) ++ b4) b5 []);
      [rewrite !length_app; unfold b1, b2, b3, b4; rewrite !le_bytes_length;
       reflexivity
      |apply le_bytes_length]. }
  rewrite H1, H2, H3, H4, H5. unfold b1, b2, b3, b4, b5.
  rewrite !le_unsigned_le_bytes.
  change (256 ^ Z.of_nat 8) with (2 ^ 64).
  change (256 ^ Z.of_nat 2) with (2 ^ 16).
  change (256 ^ Z.of_nat 4) with (2 ^ 32).
  rewrite !to_signed_mod by (cbn; lia).
  rewrite !Z.mod_small by lia. reflexivity.
Qed.

Lemma read_event_line_encode (e : input_event) :
  in_range e -> read_event_line (encode e) = event_line e.
Proof.
  intros He. unfold read_event_line. now rewrite decode_encode.
Qed.

(** ** Termination of the inner loop *)

(** A stalling result leaves [total_written] as it is: the next round of
    the loop makes the same request. *)
Lemma write_retry_stalls (fuel : nat) (w : world) (st : state) (t : Z) :
  t < event_size -> stalls (wr w (writes st)) ->
  write_retry (S fuel) w st t =
  write_retry fuel w (stalled st (offered st t) (wr w (writes st))) t /\
  offered (stalled st (offered st t) (wr w (writes st))) t = offered st t.
Proof.
  intros Ht Hstall. split; [|reflexivity].
  cbn [write_retry]. destruct (Z.ltb_spec t event_size); [|lia].
  unfold sys_write. fold (offered st t).
  destruct (wr w (writes st)) as [n|e]; cbn in Hstall; subst.
  - cbn [firstn List.length Z.of_nat]. change (0 <? 0) with false. cbn iota.
    rewrite Z.add_0_r. reflexivity.
  - change (-1 <? 0) with true. cbn iota. cbn [errno].
    change (EINTR =? EINTR) with true. cbn iota. reflexivity.
Qed.

(** While every result stalls, the loop goes on. *)
Lemma write_retry_spins (w : world) (t : Z) :
  t < event_size ->
  forall fuel st,
    (forall i, stalls (wr w (writes st + i))) ->
    fst (write_retry fuel w st t) = Running.
Proof.
  intros Ht. induction fuel as [|fuel IH]; intros st Hstall.
  - cbn. destruct (Z.ltb_spec t event_size); [reflexivity | lia].
  - pose proof (Hstall 0%nat) as H0. rewrite Nat.add_0_r in H0.
    rewrite (proj1 (write_retry_stalls fuel w st t Ht H0)).
    apply IH. intros i. cbn [writes stalled].
    specialize (Hstall (S i)). rewrite Nat.add_succ_r in Hstall.
    exact Hstall.
Qed.

(** While every result advances, the loop ends within
    [event_size - total_written] rounds. *)
Lemma write_retry_ends (w : world) :
  forall fuel st t,
    event_size <= Z.of_nat (List.length (ev st)) -> 0 <= t ->
    (forall i, advances (wr w (writes st + i))) ->
    event_size - t <= Z.of_nat fuel ->
    fst (write_retry fuel w st t) <> Running.
Proof.
  assert (Hes : event_size = 24) by reflexivity.
  induction fuel as [|fuel IH]; intros st t Hev Ht Hadv Hfuel.
  - cbn. destruct (Z.ltb_spec t event_size); [lia | discriminate].
  - cbn [write_retry]. destruct (Z.ltb_spec t event_size); [|discriminate].
    pose proof (Hadv 0%nat) as H0. rewrite Nat.add_0_r in H0.
    unfold sys_write. rewrite to_size_t_small by lia.
    set (buf := firstn (Z.to_nat (event_size - t))
                       (skipn (Z.to_nat t) (ev st))).
    assert (Hbuf : (1 <= List.length buf)%nat).
    { unfold buf. rewrite length_firstn, length_skipn. lia. }
    destruct (wr w (writes st)) as [n|e]; cbn in H0.
    + assert (Hsent : (1 <= List.length (firstn n buf))%nat)
        by (rewrite length_firstn; lia).
      destruct (Z.ltb_spec (Z.of_nat (List.length (firstn n buf))) 0); [lia|].
      apply IH; cbn [ev writes]; try lia.
      intros i. specialize (Hadv (S i)). rewrite Nat.add_succ_r in Hadv.
      exact Hadv.
    + change (-1 <? 0) with true. cbn iota. cbn [errno].
      apply Z.eqb_neq in H0. rewrite H0.
      destruct (e =? EPIPE); discriminate.
Qed.

(** * The claims *)

(** C1: in the world that presents the well-formed records [recs] and
    injects no fault, [main] exits with status 0 (for every fuel above the
    number of records), the bytes on the output stream are exactly the
    bytes of [recs] in order, and the write calls are one per record, in
    the order of the records, each taking the whole record. *)
Theorem C1_fidelity (recs : list (list byte)) (ev0 : list byte) (fuel : nat) :
  Forall well_formed recs -> (List.length recs < fuel)%nat ->
  exists st,
    main fuel (quiet recs) ev0 = (Some 0, st) /\
    stdout_of (trace st) = List.concat recs /\
    writes_of (trace st) =
      map (fun r => EvWrite r (WrBytes (Z.to_nat event_size))) recs.
Proof.
  intros Hwf Hfuel.
  destruct (quiet_main recs ev0 fuel Hwf Hfuel) as (st & Hrun & Htr).
  exists st. split; [exact Hrun|]. rewrite Htr. split.
  - rewrite stdout_of_app, stdout_of_relays. cbn. apply app_nil_r.
  - rewrite writes_of_app, writes_of_relays. cbn [writes_of filter].
    rewrite app_nil_r. apply map_ext_Forall.
    eapply Forall_impl; [|exact Hwf].
    unfold well_formed. intros r Hr. cbn beta. do 2 f_equal. lia.
Qed.

Lemma C1_fidelity_witness :
  exists st,
    main 3 (quiet [sample; sample']) [] = (Some 0, st) /\
    stdout_of (trace st) = List.concat [sample; sample'] /\
    writes_of (trace st) =
      map (fun r => EvWrite r (WrBytes (Z.to_nat event_size)))
          [sample; sample'].
Proof.
  apply (C1_fidelity [sample; sample'] [] 3).
  - repeat constructor.
  - cbn. lia.
Defined.

(** C2: a write that is interrupted by a signal fails with EINTR.  In any
    run, under any environment, when a write fails with EINTR at a moment
    when [k] bytes of the current record [r] have been transmitted (the
    output stream holds the records before [r] and the first [k] bytes of
    [r]; [k = 0] for the write of line 39), the bytes it offered were the
    [sizeof - k] bytes of [r] from offset [k] on, the next call of the
    program is the write of exactly those bytes again, and by the time the
    program reads again, the calls in between have transmitted exactly
    those bytes: the stream then holds one copy of [r].  In the inner
    loop, a write at offset [t] that takes [n] bytes is followed by the
    write of the bytes from offset [t + n] on, or, the record complete, by
    the next read.  And the program does get there: when the records [before] have been forwarded and the
    stream, after the interruption of the first write of [r] and finitely
    many more interruptions and short counts, takes what it is offered, the
    run ends with status 0 and the stream holds exactly [before] and then
    [r]. *)
Theorem C2_interrupted_write_resumed :
  (forall fuel w ev0 pre buf post,
     trace (snd (main fuel w ev0)) = pre ++ EvWrite buf (WrErr EINTR) :: post ->
     exists done r k,
       well_formed r /\ 0 <= k < event_size /\
       records_of pre = done ++ [r] /\
       stdout_of pre = List.concat done ++ firstn (Z.to_nat k) r /\
       buf = rest r k /\
       Z.of_nat (List.length buf) = event_size - k /\
       next_write (fst (main fuel w ev0)) (rest r k) post /\
       (forall post1 count o post2,
          post = post1 ++ EvRead count o :: post2 ->
          Forall (fun e => ~ is_read e) post1 ->
          stdout_of post1 = rest r k))
  /\
  (forall fuel w ev0 pre buf' o' buf n post,
     trace (snd (main fuel w ev0)) =
       pre ++ EvWrite buf' o' :: EvWrite buf (WrBytes n) :: post ->
     exists done r t,
       well_formed r /\ 0 <= t < event_size /\ buf = rest r t /\
       records_of pre = done ++ [r] /\
       stdout_of (pre ++ [EvWrite buf' o']) =
         List.concat done ++ firstn (Z.to_nat t) r /\
       (n <= List.length buf)%nat /\
       if t + Z.of_nat n <? event_size
       then next_write (fst (main fuel w ev0)) (rest r (t + Z.of_nat n)) post
       else next_read (fst (main fuel w ev0)) post)
  /\
  (forall before r sched ev0 fuel,
     Forall well_formed before -> well_formed r -> Forall transient sched ->
     (List.length before + List.length sched + 2 < fuel)%nat ->
     exists st,
       main fuel (interrupting before r sched) ev0 = (Some 0, st) /\
       stdout_of (trace st) = List.concat before ++ r).
Proof.
  split; [|split; [|exact interrupting_run]].
  2:{ intros fuel w ev0 pre buf' o' buf n post Htr.
      assert (Htr' : trace (snd (main fuel w ev0)) =
                (pre ++ [EvWrite buf' o']) ++ EvWrite buf (WrBytes n) :: post).
      { rewrite Htr, <- app_assoc. reflexivity. }
      destruct (write_after_write fuel w ev0 pre post buf' buf o' _ Htr')
        as (done & r & t & Hr & Ht & Hbuf & Hrecs & Hout & Hlen & Hnext).
      exists done, r, t. subst buf. auto 10. }
  intros fuel w ev0 pre buf post Htr.
  pose proof (main_at_write fuel w ev0 pre post _ Htr) as H.
  destruct H as (done & r & k & Hr & Hk & Hbuf & Hrecs & Hout & Hcases).
  exists done, r, k. repeat (split; [assumption || lia|]).
  split; [subst buf; apply rest_length; [assumption | lia]|]. split.
  - destruct Hcases as [(_ & Hk0 & Hafter)|(_ & Hafter)]; cbn in Hafter.
    + subst k. exact Hafter.
    + exact Hafter.
  - intros post1 count o post2 Hpost Hnoread.
    assert (Htr' : trace (snd (main fuel w ev0)) =
              (pre ++ EvWrite buf (WrErr EINTR) :: post1) ++
              EvRead count o :: post2).
    { rewrite Htr, Hpost, <- app_assoc. reflexivity. }
    pose proof (main_at_read fuel w ev0 _ post2 _ Htr') as H.
    destruct H as (_ & [Hsettled _] & _).
    rewrite stdout_of_app, records_of_app in Hsettled.
    change (stdout_of (EvWrite buf (WrErr EINTR) :: post1))
      with (stdout_of post1) in Hsettled.
    change (records_of (EvWrite buf (WrErr EINTR) :: post1))
      with (records_of post1) in Hsettled.
    rewrite (records_of_no_read post1 Hnoread), app_nil_r in Hsettled.
    rewrite Hrecs, Hout, concat_app, <- app_assoc in Hsettled.
    apply app_inv_head in Hsettled. cbn [List.concat] in Hsettled.
    rewrite app_nil_r in Hsettled.
    rewrite <- (firstn_skipn (Z.to_nat k) r) in Hsettled at 2.
    apply app_inv_head in Hsettled. exact Hsettled.
Qed.

Lemma C2_interrupted_write_resumed_witness :
  (exists done r k,
     well_formed r /\ 0 <= k < event_size /\
     records_of (relay sample' ++ opening sample ++
                 [EvWrite sample (WrErr EINTR); EvWrite sample (WrBytes 10)])
       = done ++ [r] /\
     stdout_of (relay sample' ++ opening sample ++
                [EvWrite sample (WrErr EINTR); EvWrite sample (WrBytes 10)])
       = List.concat done ++ firstn (Z.to_nat k) r /\
     rest sample 10 = rest r k /\
     Z.of_nat (List.length (rest sample 10)) = event_size - k /\
     next_write (fst (main 10 resumed_world [])) (rest r k)
       [EvWrite (rest sample 10) (WrBytes 0);
        EvWrite (rest sample 10) (WrBytes 5);
        EvWrite (rest sample 15) (WrBytes 9);
        EvRead event_size (RdBytes [])] /\
     (forall post1 count o post2,
        [EvWrite (rest sample 10) (WrBytes 0);
         EvWrite (rest sample 10) (WrBytes 5);
         EvWrite (rest sample 15) (WrBytes 9);
         EvRead event_size (RdBytes [])] =
          post1 ++ EvRead count o :: post2 ->
        Forall (fun e => ~ is_read e) post1 ->
        stdout_of post1 = rest r k))
  /\
  (exists done r t,
     well_formed r /\ 0 <= t < event_size /\ sample = rest r t /\
     records_of (relay sample' ++ opening sample) = done ++ [r] /\
     stdout_of ((relay sample' ++ opening sample) ++
                [EvWrite sample (WrErr EINTR)]) =
       List.concat done ++ firstn (Z.to_nat t) r /\
     (10 <= List.length sample)%nat /\
     if t + Z.of_nat 10 <? event_size
     then next_write (fst (main 10 resumed_world []))
            (rest r (t + Z.of_nat 10))
            [EvWrite (rest sample 10) (WrErr EINTR);
             EvWrite (rest sample 10) (WrBytes 0);
             EvWrite (rest sample 10) (WrBytes 5);
             EvWrite (rest sample 15) (WrBytes 9);
             EvRead event_size (RdBytes [])]
     else next_read (fst (main 10 resumed_world []))
            [EvWrite (rest sample 10) (WrErr EINTR);
             EvWrite (rest sample 10) (WrBytes 0);
             EvWrite (rest sample 10) (WrBytes 5);
             EvWrite (rest sample 15) (WrBytes 9);
             EvRead event_size (RdBytes [])])
  /\
  (exists st,
     main 10 resumed_world [] = (Some 0, st) /\
     stdout_of (trace st) = List.concat [sample'] ++ sample).
Proof.
  split; [|split].
  - apply (proj1 C2_interrupted_write_resumed 10%nat resumed_world []
             (relay sample' ++ opening sample ++
              [EvWrite sample (WrErr EINTR); EvWrite sample (WrBytes 10)])
             (rest sample 10)).
    vm_compute. reflexivity.
  - apply (proj1 (proj2 C2_interrupted_write_resumed) 10%nat resumed_world []
             (relay sample' ++ opening sample) sample (WrErr EINTR)).
    vm_compute. reflexivity.
  - apply (proj2 (proj2 C2_interrupted_write_resumed) [sample'] sample
             [WrBytes 10; WrErr EINTR; WrBytes 0; WrBytes 5] [] 10%nat).
    + repeat constructor.
    + reflexivity.
    + repeat constructor.
    + cbn. lia.
Defined.

(** C3: in any run, under any environment, when a write fails with EPIPE
    the process has exited with status 0, and more fuel changes nothing to
    the run; the only call after that write is
    the fprintf of a note (the note of line 45 after the write of line 39,
    the note of line 57 after a write of the retry loop), so nothing is
    written after it and no error is reported.  The output stream holds
    what was written before: every record read before the last one, [r],
    in full, once and in order, and of [r] nothing when the failed write
    was the one of line 39, or the [t] bytes already taken when it was a
    write of the retry loop at offset [t]. *)
Theorem C3_broken_pipe (fuel : nat) (w : world) (ev0 : list byte)
    (pre post : list event) (buf : list byte) :
  trace (snd (main fuel w ev0)) = pre ++ EvWrite buf (WrErr EPIPE) :: post ->
  fst (main fuel w ev0) = Some 0 /\
  (forall more, main (more + fuel) w ev0 = main fuel w ev0) /\
  stdout_of (trace (snd (main fuel w ev0))) = stdout_of pre /\
  exists done r,
    well_formed r /\
    records_of (trace (snd (main fuel w ev0))) = done ++ [r] /\
    ((post = [EvFprintf broken_pipe_line] /\ buf = r /\
      stdout_of pre = List.concat done)
     \/
     (post = [EvFprintf broken_pipe_retry_line] /\
      exists t, 0 <= t < event_size /\ buf = rest r t /\
        stdout_of pre = List.concat done ++ firstn (Z.to_nat t) r)).
Proof.
  intros Htr. pose proof (main_at_write fuel w ev0 pre post _ Htr) as H.
  destruct H as (done & r & t & Hr & Ht & Hbuf & Hrecs & Hout & Hcases).
  assert (Hpost : fst (main fuel w ev0) = Some 0 /\
                  (post = [EvFprintf broken_pipe_line] /\ t = 0 \/
                   post = [EvFprintf broken_pipe_retry_line])).
  { destruct Hcases as [(_ & Ht0 & Hafter)|(_ & Hafter)]; cbn in Hafter;
      destruct Hafter as [Hc Hp]; auto. }
  destruct Hpost as [Hc Hpost]. split; [exact Hc|].
  split; [exact (main_ended fuel w ev0 0 Hc)|].
  assert (Hsame : stdout_of (trace (snd (main fuel w ev0))) = stdout_of pre /\
                  records_of (trace (snd (main fuel w ev0))) = records_of pre).
  { rewrite Htr, stdout_of_app, records_of_app.
    destruct Hpost as [[-> _]| ->]; cbn; rewrite !app_nil_r; auto. }
  destruct Hsame as [Hs Hrs]. split; [exact Hs|].
  exists done, r. split; [exact Hr|]. split; [congruence|].
  destruct Hpost as [[Hp Ht0]|Hp].
  - left. subst t. cbn in Hout. rewrite app_nil_r in Hout. auto.
  - right. split; [exact Hp|]. exists t. auto.
Qed.

Lemma C3_broken_pipe_witness :
  fst (main 5 broken_pipe_world []) = Some 0 /\
  (forall more,
     main (more + 5) broken_pipe_world [] = main 5 broken_pipe_world []) /\
  stdout_of (trace (snd (main 5 broken_pipe_world []))) =
    stdout_of (relay sample ++ opening sample') /\
  exists done r,
    well_formed r /\
    records_of (trace (snd (main 5 broken_pipe_world []))) = done ++ [r] /\
    (([EvFprintf broken_pipe_line] = [EvFprintf broken_pipe_line] /\
      sample' = r /\
      stdout_of (relay sample ++ opening sample') = List.concat done)
     \/
     ([EvFprintf broken_pipe_line] = [EvFprintf broken_pipe_retry_line] /\
      exists t, 0 <= t < event_size /\ sample' = rest r t /\
        stdout_of (relay sample ++ opening sample') =
          List.concat done ++ firstn (Z.to_nat t) r)).
Proof.
  apply (C3_broken_pipe 5 broken_pipe_world []
           (relay sample ++ opening sample') [EvFprintf broken_pipe_line]
           sample').
  vm_compute. reflexivity.
Defined.

(** C4: the writes of lines 50-65 are made only once [errno == EINTR] has
    classified the write of the record as interrupted; the write of a
    record that is not so classified is the one of line 39, the call that
    follows the log line of the record.  In any run, under any environment,
    when that write returns a count below [sizeof(struct input_event)] the
    process has exited with status 1, more fuel changes nothing to the run,
    and the only call after the write is the fprintf of the partial-write
    diagnostic: one line, and no further write. *)
Theorem C4_short_write_fatal (fuel : nat) (w : world) (ev0 : list byte)
    (pre post : list event) (line : string) (buf : list byte) (n : nat) :
  trace (snd (main fuel w ev0)) =
    pre ++ EvFprintf line :: EvWrite buf (WrBytes n) :: post ->
  Z.of_nat n < event_size ->
  fst (main fuel w ev0) = Some 1 /\
  (forall more, main (more + fuel) w ev0 = main fuel w ev0) /\
  post = [EvFprintf (partial_write_line (Z.of_nat n))] /\
  well_formed buf /\ line = read_event_line buf.
Proof.
  intros Htr Hn.
  assert (Htr' : trace (snd (main fuel w ev0)) =
            (pre ++ [EvFprintf line]) ++ EvWrite buf (WrBytes n) :: post).
  { rewrite Htr, <- app_assoc. reflexivity. }
  destruct (write_after_log fuel w ev0 pre post line buf _ Htr')
    as (Hbuf & Hline & Hafter).
  cbn [after_first_write] in Hafter.
  destruct (Z.ltb_spec (Z.of_nat n) event_size); [|lia].
  destruct Hafter as [Hc Hpost].
  split; [exact Hc|]. split; [exact (main_ended fuel w ev0 1 Hc)|]. auto.
Qed.

Lemma C4_short_write_fatal_witness :
  fst (main 5 short_write_world []) = Some 1 /\
  (forall more,
     main (more + 5) short_write_world [] = main 5 short_write_world []) /\
  [EvFprintf (partial_write_line 10)] =
    [EvFprintf (partial_write_line (Z.of_nat 10))] /\
  well_formed sample' /\ read_event_line sample' = read_event_line sample'.
Proof.
  apply (C4_short_write_fatal 5%nat short_write_world []
           (relay sample ++ [EvRead event_size (RdBytes sample')])
           [EvFprintf (partial_write_line 10)]
           (read_event_line sample') sample' 10%nat).
  - vm_compute. reflexivity.
  - vm_compute. reflexivity.
Defined.

(** C5: in any run, under any environment, when a read returns a count [n]
    with [0 < n < sizeof(struct input_event)] the process has exited with
    status 1, more fuel changes nothing to the run, the only call after
    that read is the fprintf of the
    partial-read diagnostic, and the output stream holds exactly the bytes
    it held before the read: the bytes just read are not forwarded. *)
Theorem C5_short_read_fatal (fuel : nat) (w : world) (ev0 : list byte)
    (pre post : list event) (count : Z) (data : list byte) :
  trace (snd (main fuel w ev0)) = pre ++ EvRead count (RdBytes data) :: post ->
  0 < Z.of_nat (List.length data) < event_size ->
  fst (main fuel w ev0) = Some 1 /\
  (forall more, main (more + fuel) w ev0 = main fuel w ev0) /\
  post = [EvFprintf (partial_read_line (Z.of_nat (List.length data)))] /\
  stdout_of (trace (snd (main fuel w ev0))) = stdout_of pre.
Proof.
  intros Htr Hshort.
  pose proof (main_at_read fuel w ev0 pre post _ Htr) as H.
  destruct H as (_ & _ & H). revert H. size_cases; try lia.
  intros [Hc Hpost]. split; [exact Hc|].
  split; [exact (main_ended fuel w ev0 1 Hc)|]. split; [exact Hpost|].
  rewrite Htr, Hpost, stdout_of_app. cbn. apply app_nil_r.
Qed.

Lemma C5_short_read_fatal_witness :
  fst (main 5 short_read_world []) = Some 1 /\
  (forall more,
     main (more + 5) short_read_world [] = main 5 short_read_world []) /\
  [EvFprintf (partial_read_line 7)] = [EvFprintf (partial_read_line 7)] /\
  stdout_of (trace (snd (main 5 short_read_world []))) =
    stdout_of (relay sample).
Proof.
  apply (C5_short_read_fatal 5 short_read_world [] (relay sample)
           [EvFprintf (partial_read_line 7)] event_size (firstn 7 sample')).
  - vm_compute. reflexivity.
  - vm_compute. split; reflexivity.
Defined.

(** C6: in any run, under any environment, when a read returns zero bytes
    the process has exited with status 0, more fuel changes nothing to the
    run, and that read is its last call;
    it was a request for a whole record; every read before it that returned
    data returned a whole record, and the output stream holds exactly those
    records, each in full, once, in the order read. *)
Theorem C6_clean_eof (fuel : nat) (w : world) (ev0 : list byte)
    (pre post : list event) (count : Z) :
  trace (snd (main fuel w ev0)) = pre ++ EvRead count (RdBytes []) :: post ->
  fst (main fuel w ev0) = Some 0 /\
  (forall more, main (more + fuel) w ev0 = main fuel w ev0) /\
  post = [] /\ count = event_size /\
  whole_reads pre /\
  stdout_of (trace (snd (main fuel w ev0))) = List.concat (records_of pre).
Proof.
  intros Htr. pose proof (main_at_read fuel w ev0 pre post _ Htr) as H.
  cbn in H. destruct H as (Hcount & [Hout Hwhole] & Hc & Hpost).
  split; [exact Hc|]. split; [exact (main_ended fuel w ev0 0 Hc)|].
  repeat split; auto.
  rewrite Htr, Hpost, stdout_of_app. cbn. rewrite app_nil_r. exact Hout.
Qed.

Lemma C6_clean_eof_witness :
  fst (main 5 (quiet [sample; sample']) []) = Some 0 /\
  (forall more,
     main (more + 5) (quiet [sample; sample']) [] =
     main 5 (quiet [sample; sample']) []) /\
  @nil event = [] /\ event_size = event_size /\
  whole_reads (relay sample ++ relay sample') /\
  stdout_of (trace (snd (main 5 (quiet [sample; sample']) []))) =
    List.concat (records_of (relay sample ++ relay sample')).
Proof.
  apply (C6_clean_eof 5 (quiet [sample; sample']) []
           (relay sample ++ relay sample') [] event_size).
  vm_compute. reflexivity.
Defined.

(** C7: in any run, under any environment: a read that fails with EINTR
    asked for a whole record and, unless the run is out of fuel, the next
    call is again the read of a whole record; a write that fails with EINTR
    is followed, unless the run is out of fuel, by the write of the very
    bytes it offered; whenever the program reads, the output stream holds
    exactly the records read before, each once and in order; at any moment
    the stream holds the records read, each once and in order, short only
    of bytes of the last one; and no perror ever reports EINTR. *)
Theorem C7_no_skip_no_duplicate (fuel : nat) (w : world) (ev0 : list byte) :
  (forall pre count post,
     trace (snd (main fuel w ev0)) = pre ++ EvRead count (RdErr EINTR) :: post ->
     count = event_size /\ next_read (fst (main fuel w ev0)) post) /\
  (forall pre buf post,
     trace (snd (main fuel w ev0)) = pre ++ EvWrite buf (WrErr EINTR) :: post ->
     next_write (fst (main fuel w ev0)) buf post) /\
  (forall pre count o post,
     trace (snd (main fuel w ev0)) = pre ++ EvRead count o :: post ->
     stdout_of pre = List.concat (records_of pre)) /\
  relayed (trace (snd (main fuel w ev0))) /\
  Forall not_eintr_report (trace (snd (main fuel w ev0))).
Proof.
  split; [|split; [|split; [|split]]].
  - intros pre count post Htr.
    pose proof (main_at_read fuel w ev0 pre post _ Htr) as Hat.
    destruct Hat as (Hcount & _ & Hnext). split; [exact Hcount|].
    exact Hnext.
  - intros pre buf post Htr.
    pose proof (main_at_write fuel w ev0 pre post _ Htr) as Hat.
    destruct Hat as (done & r & t & _ & _ & -> & _ & _ & Hcases).
    destruct Hcases as [(_ & -> & Hafter)|(_ & Hafter)]; exact Hafter.
  - intros pre count o post Htr.
    pose proof (main_at_read fuel w ev0 pre post _ Htr) as Hat.
    apply Hat.
  - apply (relayed_main _ _ (main_shape fuel w ev0) [] settled_nil).
  - apply (main_reports _ _ (main_shape fuel w ev0)).
Qed.

Lemma C7_no_skip_no_duplicate_witness :
  (event_size = event_size /\
   next_read (fst (main 8 signals []))
     (opening sample ++
      [EvWrite sample (WrErr EINTR); EvWrite sample (WrBytes 10);
       EvWrite (rest sample 10) (WrErr EINTR);
       EvWrite (rest sample 10) (WrBytes 14);
       EvRead event_size (RdBytes [])])) /\
  next_write (fst (main 8 signals [])) (rest sample 10)
    [EvWrite (rest sample 10) (WrBytes 14); EvRead event_size (RdBytes [])] /\
  relayed (trace (snd (main 8 signals []))) /\
  fst (main 8 signals []) = Some 0 /\
  stdout_of (trace (snd (main 8 signals []))) = sample.
Proof.
  destruct (C7_no_skip_no_duplicate 8 signals [])
    as (Hread & Hwrite & _ & Hrelayed & _).
  split; [|split; [|split; [|split]]].
  - apply (Hread [] event_size). vm_compute. reflexivity.
  - apply (Hwrite
             (EvRead event_size (RdErr EINTR) :: opening sample ++
              [EvWrite sample (WrErr EINTR); EvWrite sample (WrBytes 10)])).
    vm_compute. reflexivity.
  - exact Hrelayed.
  - vm_compute. reflexivity.
  - vm_compute. reflexivity.
Defined.

(** C8: in any run, under any environment, when a call meets one of the
    fatal faults the process has exited with status 1, more fuel changes
    nothing to the run, and exactly one call follows the faulty one: the fprintf or perror of the diagnostic for
    that fault.  So the loop is left at once, and the faulty call is not
    made again. *)
Theorem C8_fatal_faults (fuel : nat) (w : world) (ev0 : list byte)
    (pre post : list event) (e : event) :
  trace (snd (main fuel w ev0)) = pre ++ e :: post ->
  fatal_fault pre e ->
  fst (main fuel w ev0) = Some 1 /\
  (forall more, main (more + fuel) w ev0 = main fuel w ev0) /\
  exists d, post = [d] /\ describes e d.
Proof.
  intros Htr Hfault.
  cut (fst (main fuel w ev0) = Some 1 /\ exists d, post = [d] /\ describes e d).
  { intros [Hc Hd]. split; [exact Hc|].
    split; [exact (main_ended fuel w ev0 1 Hc) | exact Hd]. }
  destruct e as [count [data|n]|buf [n|n]|text|s n];
    cbn [fatal_fault] in Hfault; try contradiction.
  - (* short read *)
    pose proof (main_at_read fuel w ev0 pre post _ Htr) as H.
    destruct H as (_ & _ & H). revert H. size_cases; try lia.
    intros [Hc Hpost]. split; [exact Hc|]. eexists. split; [exact Hpost|].
    reflexivity.
  - (* read error *)
    pose proof (main_at_read fuel w ev0 pre post _ Htr) as H.
    destruct H as (_ & _ & H). revert H. size_cases; [contradiction|].
    intros [Hc Hpost]. split; [exact Hc|]. eexists. split; [exact Hpost|].
    reflexivity.
  - (* short first write *)
    destruct Hfault as (Hn & pre0 & line & ->).
    destruct (write_after_log fuel w ev0 pre0 post line buf _ Htr)
      as (_ & _ & Hafter).
    cbn [after_first_write] in Hafter.
    destruct (Z.ltb_spec (Z.of_nat n) event_size); [|lia].
    destruct Hafter as [Hc Hpost]. split; [exact Hc|].
    eexists. split; [exact Hpost|]. reflexivity.
  - (* write error *)
    destruct Hfault as [Hn1 Hn2]. apply Z.eqb_neq in Hn1, Hn2.
    pose proof (main_at_write fuel w ev0 pre post _ Htr) as H.
    destruct H as (done & r & t & _ & _ & _ & _ & _ & Hcases).
    destruct Hcases as [(_ & _ & Hafter)|(_ & Hafter)];
      cbn in Hafter; unfold EPIPE, EINTR in *; rewrite Hn1, Hn2 in Hafter;
      destruct Hafter as [Hc Hpost]; (split; [exact Hc|]);
      eexists; (split; [exact Hpost|]); cbn; auto.
Qed.

Lemma C8_fatal_faults_witness :
  fst (main 5 read_error_world []) = Some 1 /\
  (forall more,
     main (more + 5) read_error_world [] = main 5 read_error_world []) /\
  exists d,
    [EvPerror "Error reading from stdin" 5] = [d] /\
    describes (EvRead event_size (RdErr 5)) d.
Proof.
  apply (C8_fatal_faults 5 read_error_world [] (relay sample)
           [EvPerror "Error reading from stdin" 5]
           (EvRead event_size (RdErr 5))).
  - vm_compute. reflexivity.
  - cbn. discriminate.
Defined.

(** C9: in any run, under any environment, a read that returns a whole
    record [r] is made when the output stream holds exactly the records
    read before, each in full, and the two calls after it are the fprintf
    of the log line of [r] and then the write that offers [r]: read, log,
    write, in that order, one record at a time.  And when the records with
    the fields [es] are presented and no fault is injected, the run ends
    with status 0, its calls are, for each record in turn, the read, the
    log line and the write of the whole record, followed by the read that
    meets the end of the input; so the diagnostics are one line per record,
    in the order of the records, each formatting the timestamp, type, code
    and value of its record. *)
Theorem C9_order_and_diagnostics :
  (forall fuel w ev0 pre count r post,
     trace (snd (main fuel w ev0)) = pre ++ EvRead count (RdBytes r) :: post ->
     well_formed r ->
     stdout_of pre = List.concat (records_of pre) /\
     exists o post',
       post = EvFprintf (read_event_line r) :: EvWrite r o :: post')
  /\
  (forall es ev0 fuel,
     Forall in_range es -> (List.length es < fuel)%nat ->
     exists st,
       main fuel (quiet (map encode es)) ev0 = (Some 0, st) /\
       trace st =
         flat_map relay (map encode es) ++ [EvRead event_size (RdBytes [])] /\
       stderr_of (trace st) = map (fun e => EvFprintf (event_line e)) es /\
       List.length (stderr_of (trace st)) = List.length es /\
       stdout_of (trace st) = List.concat (map encode es)).
Proof.
  split.
  - intros fuel w ev0 pre count r post Htr Hr.
    pose proof (main_at_read fuel w ev0 pre post _ Htr) as H.
    destruct H as (_ & [Hout _] & H). split; [exact Hout|].
    revert H. unfold well_formed in Hr. rewrite Hr.
    change (event_size =? 0) with false.
    change (event_size <? event_size) with false. cbn iota. auto.
  - intros es ev0 fuel Hes Hfuel.
    destruct (quiet_main (map encode es) ev0 fuel) as (st & Hrun & Htr).
    { apply Forall_map. eapply Forall_impl; [|exact Hes].
      intros e _. apply encode_well_formed. }
    { rewrite length_map. exact Hfuel. }
    exists st. split; [exact Hrun|]. split; [exact Htr|].
    assert (Hlines : stderr_of (trace st) =
              map (fun e => EvFprintf (event_line e)) es).
    { rewrite Htr, stderr_of_app, stderr_of_relays. cbn [stderr_of filter].
      rewrite app_nil_r, map_map. apply map_ext_Forall.
      eapply Forall_impl; [|exact Hes].
      intros e He. cbn beta. f_equal. apply read_event_line_encode, He. }
    split; [exact Hlines|]. split.
    + rewrite Hlines. apply length_map.
    + rewrite Htr, stdout_of_app, stdout_of_relays. cbn. apply app_nil_r.
Qed.

Lemma C9_order_and_diagnostics_witness :
  (stdout_of (relay sample) = List.concat (records_of (relay sample)) /\
   exists o post',
     [EvFprintf (read_event_line sample');
      EvWrite sample' (WrBytes 24);
      EvRead event_size (RdBytes [])] =
     EvFprintf (read_event_line sample') :: EvWrite sample' o :: post')
  /\
  (exists st,
     main 3 (quiet (map encode [sample_event; sample_event'])) [] =
       (Some 0, st) /\
     trace st =
       flat_map relay (map encode [sample_event; sample_event']) ++
       [EvRead event_size (RdBytes [])] /\
     stderr_of (trace st) =
       map (fun e => EvFprintf (event_line e)) [sample_event; sample_event'] /\
     List.length (stderr_of (trace st)) =
       List.length [sample_event; sample_event'] /\
     stdout_of (trace st) =
       List.concat (map encode [sample_event; sample_event'])).
Proof.
  split.
  - apply (proj1 C9_order_and_diagnostics 3%nat (quiet [sample; sample']) []
             (relay sample) event_size sample').
    + vm_compute. reflexivity.
    + reflexivity.
  - apply (proj2 C9_order_and_diagnostics [sample_event; sample_event'] []
             3%nat).
    + repeat constructor; cbn; lia.
    + cbn. lia.
Defined.

(** C10: from a state of the inner loop ([ev] holds a record and
    [total_written = t] is below the size of a record): when every write
    takes at least one byte or fails with an error other than EINTR, the
    loop ends within [event_size - t] rounds; a write that takes no byte,
    or fails with EINTR, leaves [total_written] and the bytes offered as
    they are, so the next round repeats the request; and when every write
    does so, the loop never ends. *)
Theorem C10_retry_termination (w : world) (st : state) (t : Z) :
  event_size <= Z.of_nat (List.length (ev st)) -> 0 <= t < event_size ->
  ((forall i, advances (wr w (writes st + i))) ->
   forall fuel, event_size - t <= Z.of_nat fuel ->
     fst (write_retry fuel w st t) <> Running) /\
  (stalls (wr w (writes st)) ->
   forall fuel,
     write_retry (S fuel) w st t =
     write_retry fuel w (stalled st (offered st t) (wr w (writes st))) t /\
     offered (stalled st (offered st t) (wr w (writes st))) t = offered st t) /\
  ((forall i, stalls (wr w (writes st + i))) ->
   forall fuel, fst (write_retry fuel w st t) = Running).
Proof.
  intros Hev Ht. split; [|split].
  - intros Hadv fuel Hfuel. apply write_retry_ends; auto. lia.
  - intros Hstall fuel. apply write_retry_stalls; [lia | exact Hstall].
  - intros Hstall fuel. apply write_retry_spins; [lia | exact Hstall].
Qed.

Lemma C10_retry_termination_witness :
  fst (write_retry 5 trickle (interrupted (init []) sample) 0) = Fallthrough /\
  fst (write_retry 24 trickle (interrupted (init []) sample) 0) <> Running.
Proof.
  split; [vm_compute; reflexivity|].
  destruct (C10_retry_termination trickle (interrupted (init []) sample) 0)
    as (Hends & _ & _).
  - vm_compute. discriminate.
  - vm_compute. split; [discriminate | reflexivity].
  - apply Hends.
    + intros i. cbn. lia.
    + vm_compute. discriminate.
Defined.

(** Every write fails with an error, the record is in the buffer, and the
    inner loop is still running whatever the number of rounds. *)
Lemma C10_eintr_storm :
  (forall i, exists e, wr storm i = WrErr e) /\
  ev (interrupted (init []) sample) = sample /\
  (forall fuel,
     fst (write_retry fuel storm (interrupted (init []) sample) 0) = Running) /\
  ~ (exists fuel,
       fst (write_retry fuel storm (interrupted (init []) sample) 0)
         <> Running).
Proof.
  assert (Hspin : forall fuel,
    fst (write_retry fuel storm (interrupted (init []) sample) 0) = Running).
  { intros fuel. apply write_retry_spins.
    - reflexivity.
    - intros i. reflexivity. }
  split; [|split; [|split]].
  - intros i. exists EINTR. reflexivity.
  - vm_compute. reflexivity.
  - exact Hspin.
  - intros [fuel Hends]. apply Hends, Hspin.
Qed.

(** * Further properties of the program *)

(** ** How a run ends *)

(** The last calls of the inner loop when it leaves the program. *)
Lemma retry_trace_end (r : list byte) (t : Z) (ws : list event) (c : ctl) :
  retry_trace r t ws c ->
  match c with
  | GotoEndLoop =>
      exists pre buf,
        ws = pre ++ [EvWrite buf (WrErr EPIPE);
                     EvFprintf broken_pipe_retry_line]
  | Return status =>
      status = 1 /\
      exists pre buf e,
        ws = pre ++ [EvWrite buf (WrErr e);
                     EvPerror "Error writing to stdout during retry" e] /\
        e <> EINTR /\ e <> EPIPE
  | _ => True
  end.
Proof.
  induction 1 as
    [t Hge|t Hlt|t evs c Hlt H IH|t Hlt|t e Hlt He1 He2|t n evs c Hlt Hn H IH].
  - exact I.
  - exact I.
  - destruct c as [| | |status]; auto.
    + destruct IH as (pre & buf & ->).
      exists (EvWrite (rest r t) (WrErr EINTR) :: pre), buf. reflexivity.
    + destruct IH as (Hs & pre & buf & e & -> & He).
      split; [exact Hs|].
      exists (EvWrite (rest r t) (WrErr EINTR) :: pre), buf, e. auto.
  - exists [], (rest r t). reflexivity.
  - split; [reflexivity|]. exists [], (rest r t), e. auto.
  - destruct c as [| | |status]; auto.
    + destruct IH as (pre & buf & ->).
      exists (EvWrite (rest r t) (WrBytes n) :: pre), buf. reflexivity.
    + destruct IH as (Hs & pre & buf & e & -> & He).
      split; [exact Hs|].
      exists (EvWrite (rest r t) (WrBytes n) :: pre), buf, e. auto.
Qed.

Lemma ended_by_app (a tr : list event) (status : Z) :
  (forall pre, ended_by (pre ++ tr) status) ->
  forall pre, ended_by (pre ++ a ++ tr) status.
Proof. intros H pre. rewrite app_assoc. apply H. Qed.

Lemma main_trace_ended (evs : list event) (c : option Z) :
  main_trace evs c ->
  forall status, c = Some status -> forall pre, ended_by (pre ++ evs) status.
Proof.
  induction 1 as
    [ | |evs c H IH|e He|d Hd|r evs c Hr H IH|r n Hr Hn|r Hr|r e Hr He1 He2
    |r ws Hr Hws|r ws evs c Hr Hws H IH|r ws Hr Hws|r ws status' Hr Hws];
    intros status Hc pre; try discriminate;
    try (injection Hc as <-).
  - left. split; [reflexivity|]. exists pre. reflexivity.
  - apply (ended_by_app [EvRead event_size (RdErr EINTR)] evs status
             (IH status Hc)).
  - right. right. split; [reflexivity|].
    exists pre. eexists. eexists. split; [reflexivity|].
    split; [exact He | reflexivity].
  - right. right. split; [reflexivity|].
    exists pre. eexists. eexists. split; [reflexivity|].
    split; [exact Hd | reflexivity].
  - apply (ended_by_app (opening r ++ [EvWrite r (WrBytes (List.length r))])
             evs status (IH status Hc)).
  - right. right. split; [reflexivity|].
    exists (pre ++ opening r). eexists. eexists.
    split; [rewrite <- app_assoc; reflexivity|].
    split; [|reflexivity].
    split; [unfold well_formed in Hr; lia|].
    exists (pre ++ [EvRead event_size (RdBytes r)]), (read_event_line r).
    rewrite <- app_assoc. reflexivity.
  - right. left. split; [reflexivity|].
    exists (pre ++ opening r), r, broken_pipe_line.
    split; [rewrite <- app_assoc; reflexivity | left; reflexivity].
  - right. right. split; [reflexivity|].
    exists (pre ++ opening r). eexists. eexists.
    split; [rewrite <- app_assoc; reflexivity|].
    split; [split; assumption | left; reflexivity].
  - apply (ended_by_app (opening r ++ EvWrite r (WrErr EINTR) :: ws)
             evs status).
    apply (IH status Hc).
  - destruct (retry_trace_end r 0 ws GotoEndLoop Hws) as (ws0 & buf & ->).
    right. left. split; [reflexivity|].
    exists (pre ++ opening r ++ EvWrite r (WrErr EINTR) :: ws0), buf,
      broken_pipe_retry_line.
    split; [|right; reflexivity].
    rewrite <- !app_assoc. reflexivity.
  - destruct (retry_trace_end r 0 ws (Return status') Hws)
      as (Hs & ws0 & buf & e & -> & He1 & He2).
    right. right. split; [exact Hs|].
    exists (pre ++ opening r ++ EvWrite r (WrErr EINTR) :: ws0).
    eexists. eexists.
    split; [rewrite <- !app_assoc; reflexivity|].
    split; [split; assumption | right; reflexivity].
Qed.

(** X1: a run of [main] that has exited did so for one of three reasons,
    told by its last calls: with status 0 after the read that met the end
    of the input, which is then its last call; with status 0 after a write
    that failed with EPIPE, followed only by the note about the broken
    pipe; or with status 1 after a fatal fault, followed only by the
    diagnostic of that fault.  There is no other exit status and no other
    way out of the loop. *)
Theorem X1_exit_causes (fuel : nat) (w : world) (ev0 : list byte)
    (status : Z) :
  fst (main fuel w ev0) = Some status ->
  ended_by (trace (snd (main fuel w ev0))) status.
Proof.
  intros Hc.
  apply (main_trace_ended _ _ (main_shape fuel w ev0) status Hc []).
Qed.

Lemma X1_exit_causes_witness :
  ended_by (trace (snd (main 5 broken_pipe_world []))) 0 /\
  ended_by (trace (snd (main 5 read_error_world []))) 1.
Proof.
  split.
  - apply (X1_exit_causes 5 broken_pipe_world [] 0). vm_compute. reflexivity.
  - apply (X1_exit_causes 5 read_error_world [] 1). vm_compute. reflexivity.
Defined.


(** ** What a run reports *)

Lemma log_lines_app (a b : list event) :
  log_lines (a ++ b) = log_lines a ++ log_lines b.
Proof. unfold log_lines. rewrite records_of_app. apply map_app. Qed.

(** The inner loop logs no record, and reports at most its way out. *)
Lemma retry_trace_stderr (r : list byte) (t : Z) (ws : list event) (c : ctl) :
  retry_trace r t ws c ->
  log_lines ws = [] /\
  match c with
  | Running | Fallthrough => stderr_of ws = []
  | _ => exists pre d, ws = pre ++ [d] /\ stderr_of ws = [d]
  end.
Proof.
  intros H. split.
  { unfold log_lines.
    now rewrite (records_of_no_read ws (retry_no_read _ _ _ _ H)). }
  induction H as
    [t Hge|t Hlt|t evs c Hlt H IH|t Hlt|t e Hlt He1 He2|t n evs c Hlt Hn H IH].
  - reflexivity.
  - reflexivity.
  - destruct c as [| | |status]; auto;
      destruct IH as (pre & d & -> & Hd);
      exists (EvWrite (rest r t) (WrErr EINTR) :: pre), d; auto.
  - exists [EvWrite (rest r t) (WrErr EPIPE)]. eexists.
    split; reflexivity.
  - exists [EvWrite (rest r t) (WrErr e)]. eexists. split; reflexivity.
  - destruct c as [| | |status]; auto;
      destruct IH as (pre & d & -> & Hd);
      exists (EvWrite (rest r t) (WrBytes n) :: pre), d; auto.
Qed.

(** Calls that report what they log, before the rest of a run. *)
Lemma diagnosed_app (c : option Z) (a tr : list event) :
  stderr_of a = log_lines a -> diagnosed c tr -> diagnosed c (a ++ tr).
Proof.
  intros Ha (tail & Htr & Htail). exists tail. split.
  - rewrite stderr_of_app, log_lines_app, Ha, Htr. apply app_assoc.
  - destruct Htail as [[-> [Hc|[pre ->]]]|(pre & d & status & -> & -> & Hc)].
    + left. auto.
    + left. split; [reflexivity|]. right. exists (a ++ pre).
      apply app_assoc.
    + right. exists (a ++ pre), d, status. rewrite app_assoc. auto.
Qed.

(** A run that ends with the diagnostic [d]. *)
Lemma diagnosed_last (status : Z) (pre : list event) (d : event) :
  stderr_of pre = [] -> log_lines (pre ++ [d]) = [] -> stderr_of [d] = [d] ->
  diagnosed (Some status) (pre ++ [d]).
Proof.
  intros Hpre Hlog Hd. exists [d]. split.
  - rewrite stderr_of_app, Hpre, Hlog, Hd. reflexivity.
  - right. exists pre, d, status. auto.
Qed.

Lemma log_lines_opening (r : list byte) :
  well_formed r -> stderr_of (opening r) = log_lines (opening r).
Proof.
  intros Hr. unfold log_lines. rewrite records_of_opening by assumption.
  reflexivity.
Qed.

Lemma main_trace_diagnosed (evs : list event) (c : option Z) :
  main_trace evs c -> diagnosed c evs.
Proof.
  induction 1 as
    [ | |evs c H IH|e He|d Hd|r evs c Hr H IH|r n Hr Hn|r Hr|r e Hr He1 He2
    |r ws Hr Hws|r ws evs c Hr Hws H IH|r ws Hr Hws|r ws status Hr Hws].
  - exists []. split; [reflexivity|]. left. auto.
  - exists []. split; [reflexivity|]. left. split; [reflexivity|].
    right. exists []. reflexivity.
  - apply (diagnosed_app c [EvRead event_size (RdErr EINTR)] evs);
      [reflexivity | exact IH].
  - apply (diagnosed_last 1 [EvRead event_size (RdErr e)]); reflexivity.
  - apply (diagnosed_last 1 [EvRead event_size (RdBytes d)]);
      try reflexivity.
    unfold log_lines. cbn.
    destruct (Z.eqb_spec (Z.of_nat (List.length d)) event_size);
      [lia | reflexivity].
  - change (opening r ++ EvWrite r (WrBytes (List.length r)) :: evs)
      with ((opening r ++ [EvWrite r (WrBytes (List.length r))]) ++ evs).
    apply diagnosed_app; [|exact IH].
    rewrite stderr_of_app, log_lines_app, log_lines_opening by assumption.
    reflexivity.
  - apply diagnosed_app; [apply log_lines_opening, Hr|].
    apply (diagnosed_last 1 [EvWrite r (WrBytes n)]); reflexivity.
  - apply diagnosed_app; [apply log_lines_opening, Hr|].
    apply (diagnosed_last 0 [EvWrite r (WrErr EPIPE)]); reflexivity.
  - apply diagnosed_app; [apply log_lines_opening, Hr|].
    apply (diagnosed_last 1 [EvWrite r (WrErr e)]); reflexivity.
  - apply diagnosed_app; [apply log_lines_opening, Hr|].
    destruct (retry_trace_stderr r 0 ws Running Hws) as [Hlog Herr].
    exists []. split.
    + change (stderr_of (EvWrite r (WrErr EINTR) :: ws)) with (stderr_of ws).
      change (log_lines (EvWrite r (WrErr EINTR) :: ws)) with (log_lines ws).
      rewrite Hlog, Herr. reflexivity.
    + left. auto.
  - change (opening r ++ EvWrite r (WrErr EINTR) :: ws ++ evs)
      with ((opening r ++ EvWrite r (WrErr EINTR) :: ws) ++ evs).
    apply diagnosed_app; [|exact IH].
    destruct (retry_trace_stderr r 0 ws Fallthrough Hws) as [Hlog Herr].
    rewrite stderr_of_app, log_lines_app, log_lines_opening by assumption.
    change (stderr_of (EvWrite r (WrErr EINTR) :: ws)) with (stderr_of ws).
    change (log_lines (EvWrite r (WrErr EINTR) :: ws)) with (log_lines ws).
    rewrite Hlog, Herr. reflexivity.
  - apply diagnosed_app; [apply log_lines_opening, Hr|].
    destruct (retry_trace_stderr r 0 ws GotoEndLoop Hws)
      as (Hlog & pre & d & -> & Herr).
    exists [d]. split.
    + change (stderr_of (EvWrite r (WrErr EINTR) :: pre ++ [d]))
        with (stderr_of (pre ++ [d])).
      change (log_lines (EvWrite r (WrErr EINTR) :: pre ++ [d]))
        with (log_lines (pre ++ [d])).
      rewrite Hlog, Herr. reflexivity.
    + right. exists (EvWrite r (WrErr EINTR) :: pre), d, 0. auto.
  - apply diagnosed_app; [apply log_lines_opening, Hr|].
    destruct (retry_trace_stderr r 0 ws (Return status) Hws)
      as (Hlog & pre & d & -> & Herr).
    exists [d]. split.
    + change (stderr_of (EvWrite r (WrErr EINTR) :: pre ++ [d]))
        with (stderr_of (pre ++ [d])).
      change (log_lines (EvWrite r (WrErr EINTR) :: pre ++ [d]))
        with (log_lines (pre ++ [d])).
      rewrite Hlog, Herr. reflexivity.
    + right. exists (EvWrite r (WrErr EINTR) :: pre), d, status. auto.
Qed.

(** X2: in any run, under any environment, the diagnostics are one log
    line for each record read in full, in the order read, each formatting
    the fields of its record; nothing else while the run goes on or when it
    ends at the end of the input; and otherwise exactly one more line, which
    is the last call of the run.  So a short read is never logged as a
    record, the retries log nothing, and a run reports at most one
    failure. *)
Theorem X2_diagnostics (fuel : nat) (w : world) (ev0 : list byte) :
  diagnosed (fst (main fuel w ev0)) (trace (snd (main fuel w ev0))).
Proof. apply main_trace_diagnosed, main_shape. Qed.

(** ** The bytes a write is given *)

Lemma retry_within_offer (r : list byte) (t : Z) (ws : list event) (c : ctl) :
  retry_trace r t ws c -> Forall within_offer ws.
Proof.
  induction 1; repeat constructor; cbn; auto.
Qed.

Lemma main_within_offer (evs : list event) (c : option Z) :
  main_trace evs c -> Forall within_offer evs.
Proof.
  induction 1; cbn [opening app];
    repeat (apply Forall_cons; [cbn; auto; lia|]);
    try apply Forall_app; try split; eauto using retry_within_offer.
Qed.

(** X3: in any run, under any environment, every write is given bytes of
    [ev] only, and only bytes not yet on the output stream: when the stream
    holds the records read before the last one and the first [t] bytes of
    the last one, [r], the write is given the [sizeof - t] bytes of [r] from
    offset [t] on, at least one and at most a whole record, and nothing
    beyond the end of [ev]; and the count it returns is at most the count
    it was given. *)
Theorem X3_write_in_bounds (fuel : nat) (w : world) (ev0 : list byte)
    (pre post : list event) (buf : list byte) (o : write_outcome) :
  trace (snd (main fuel w ev0)) = pre ++ EvWrite buf o :: post ->
  exists done r t,
    well_formed r /\ records_of pre = done ++ [r] /\
    stdout_of pre = List.concat done ++ firstn (Z.to_nat t) r /\
    0 <= t < event_size /\ buf = rest r t /\
    Z.of_nat (List.length buf) = event_size - t /\
    within_offer (EvWrite buf o).
Proof.
  intros Htr.
  pose proof (main_at_write fuel w ev0 pre post _ Htr) as H.
  destruct H as (done & r & t & Hr & Ht & Hbuf & Hrecs & Hout & _).
  exists done, r, t. repeat (split; [assumption || lia|]).
  split; [subst buf; apply rest_length; [assumption | lia]|].
  pose proof (main_within_offer _ _ (main_shape fuel w ev0)) as Hall.
  rewrite Htr in Hall. apply Forall_app in Hall. destruct Hall as [_ Hall].
  apply Forall_cons_iff in Hall. apply Hall.
Qed.

Lemma X3_write_in_bounds_witness :
  exists done r t,
    well_formed r /\
    records_of (EvRead event_size (RdErr EINTR) :: opening sample ++
                [EvWrite sample (WrErr EINTR); EvWrite sample (WrBytes 10);
                 EvWrite (rest sample 10) (WrErr EINTR)]) = done ++ [r] /\
    stdout_of (EvRead event_size (RdErr EINTR) :: opening sample ++
               [EvWrite sample (WrErr EINTR); EvWrite sample (WrBytes 10);
                EvWrite (rest sample 10) (WrErr EINTR)]) =
      List.concat done ++ firstn (Z.to_nat t) r /\
    0 <= t < event_size /\ rest sample 10 = rest r t /\
    Z.of_nat (List.length (rest sample 10)) = event_size - t /\
    within_offer (EvWrite (rest sample 10) (WrBytes 14)).
Proof.
  apply (X3_write_in_bounds 8 signals []
           (EvRead event_size (RdErr EINTR) :: opening sample ++
            [EvWrite sample (WrErr EINTR); EvWrite sample (WrBytes 10);
             EvWrite (rest sample 10) (WrErr EINTR)])
           [EvRead event_size (RdBytes [])]).
  vm_compute. reflexivity.
Defined.

(** ** What the program does not look at *)

(** The inner loop looks at the record in [ev] and at the [errno] of a
    write that has just failed, and at nothing else of its state. *)
Lemma write_retry_same_calls (w : world) (r tl tl' : list byte) :
  well_formed r ->
  forall fuel st st' t,
    ev st = r ++ tl -> ev st' = r ++ tl' -> 0 <= t <= event_size ->
    same_calls st st' ->
    fst (write_retry fuel w st t) = fst (write_retry fuel w st' t) /\
    same_calls (snd (write_retry fuel w st t))
               (snd (write_retry fuel w st' t)).
Proof.
  intros Hr. assert (Hes : event_size = 24) by reflexivity.
  induction fuel as [|fuel IH];
    intros st st' t Hev Hev' Ht (Hreads & Hwrites & Htrace).
  - cbn. destruct (t <? event_size); cbn [fst snd]; repeat split; auto.
  - rewrite !write_retry_step.
    destruct (Z.ltb_spec t event_size);
      [|cbn [fst snd]; repeat split; auto].
    unfold sys_write. rewrite Hev, Hev', !offered_bytes by (assumption || lia).
    rewrite <- Hwrites, <- Htrace.
    pose proof (rest_length r t Hr ltac:(lia)) as Hlen.
    destruct (wr w (writes st)) as [n|e].
    + assert (Hsent : (List.length (firstn n (rest r t))
                       <= List.length (rest r t))%nat)
        by (rewrite length_firstn; lia).
      destruct (Z.ltb_spec (Z.of_nat (List.length (firstn n (rest r t)))) 0);
        [lia|].
      apply IH; cbn [ev]; auto; [lia|].
      repeat split; cbn [reads writes trace]; congruence.
    + change (-1 <? 0) with true. cbn iota. cbn [errno].
      destruct (e =? EINTR).
      * apply IH; cbn [ev]; auto.
        repeat split; cbn [reads writes trace]; congruence.
      * destruct (e =? EPIPE); cbn [fst snd];
          (split; [reflexivity|]);
          unfold fprintf_stderr, perror, record_event;
          repeat split; cbn [reads writes trace errno]; congruence.
Qed.

(** The outer loop looks at what the calls return, at the record just
    read and at the [errno] of a call that has just failed, and at nothing
    else of its state. *)
Lemma main_loop_same_calls (w : world) :
  forall fuel st st',
    same_calls st st' ->
    fst (main_loop fuel w st) = fst (main_loop fuel w st') /\
    same_calls (snd (main_loop fuel w st)) (snd (main_loop fuel w st')).
Proof.
  assert (Hes : event_size = 24) by reflexivity.
  induction fuel as [|fuel IH]; intros st st' Hsame.
  { cbn [main_loop fst snd]. auto. }
  destruct Hsame as (Hreads & Hwrites & Htrace).
  rewrite !main_loop_step. unfold sys_read.
  rewrite <- Hreads, <- Htrace.
  destruct (rd w (reads st)) as [data|e].
  - set (got := firstn (Z.to_nat event_size) data).
    assert (Hgot : 0 <= Z.of_nat (List.length got) <= event_size).
    { unfold got. rewrite length_firstn. lia. }
    destruct (Z.eqb_spec (Z.of_nat (List.length got)) 0).
    { cbn [fst snd]. repeat split; cbn [reads writes trace]; congruence. }
    destruct (Z.ltb_spec (Z.of_nat (List.length got)) 0); [lia|].
    rewrite to_size_t_small by lia.
    destruct (Z.ltb_spec (Z.of_nat (List.length got)) event_size).
    { cbn [fst snd]. split; [reflexivity|].
      unfold fprintf_stderr, record_event.
      repeat split; cbn [reads writes trace]; congruence. }
    assert (Hr : Z.of_nat (List.length got) = event_size) by lia.
    cbv zeta. cbn [ev]. rewrite !read_event_line_app by assumption.
    unfold sys_write, fprintf_stderr, record_event.
    cbn [ev errno reads writes trace].
    rewrite !offered_record by assumption. rewrite <- Hwrites.
    destruct (wr w (writes st)) as [k|e].
    + assert (Hsent : (List.length (firstn k got) <= List.length got)%nat)
        by (rewrite length_firstn; lia).
      destruct (Z.ltb_spec (Z.of_nat (List.length (firstn k got))) 0); [lia|].
      rewrite to_size_t_small by lia.
      destruct (Z.ltb_spec (Z.of_nat (List.length (firstn k got))) event_size).
      * cbn [fst snd]. split; [reflexivity|].
        repeat split; cbn [reads writes trace]; congruence.
      * apply IH. repeat split; cbn [reads writes trace]; congruence.
    + change (-1 <? 0) with true. cbn iota. cbn [errno].
      destruct (e =? EPIPE).
      { cbn [fst snd]. split; [reflexivity|].
        repeat split; cbn [reads writes trace]; congruence. }
      destruct (e =? EINTR).
      2:{ cbn [fst snd]. split; [reflexivity|].
          unfold perror, record_event.
          repeat split; cbn [reads writes trace errno]; congruence. }
      match goal with
      | |- context [write_retry fuel w ?a 0] =>
          match goal with
          | |- context [write_retry fuel w ?b 0] =>
              lazymatch a with
              | b => fail
              | _ =>
                  destruct (write_retry_same_calls w got
                              (skipn (List.length got) (ev st))
                              (skipn (List.length got) (ev st'))
                              Hr fuel a b 0)
                    as [Hc Hsame]
              end
          end
      end.
      * reflexivity.
      * reflexivity.
      * lia.
      * repeat split; cbn [reads writes trace]; congruence.
      * match type of Hc with
        | fst ?x = fst ?y => destruct x as [c st4], y as [c' st4']
        end.
        cbn [fst snd] in Hc, Hsame. subst c'.
        destruct c as [| | |status]; cbn [fst snd]; auto.
  - change (-1 =? 0) with false. change (-1 <? 0) with true. cbn iota.
    cbn [errno]. destruct (e =? EINTR).
    + apply IH. repeat split; cbn [reads writes trace]; congruence.
    + cbn [fst snd]. split; [reflexivity|].
      unfold perror, record_event.
      repeat split; cbn [reads writes trace errno]; congruence.
Qed.

(** X4: the calls of a run, their results and the exit status are the same
    whatever [ev] and [errno] hold when [main] starts: no byte of the
    uninitialised [ev] reaches the output stream or a diagnostic, and
    [errno] is looked at only after a call has failed. *)
Theorem X4_start_state_unused (fuel : nat) (w : world)
    (ev0 ev0' : list byte) (errno0 : Z) :
  fst (main fuel w ev0) =
    fst (main_loop fuel w
           {| ev := ev0'; errno := errno0; reads := 0; writes := 0;
              trace := [] |}) /\
  trace (snd (main fuel w ev0)) =
    trace (snd (main_loop fuel w
                  {| ev := ev0'; errno := errno0; reads := 0; writes := 0;
                     trace := [] |})).
Proof.
  destruct (main_loop_same_calls w fuel (init ev0)
              {| ev := ev0'; errno := errno0; reads := 0; writes := 0;
                 trace := [] |}) as (Hc & _ & _ & Htr).
  - repeat split.
  - split; [exact Hc | exact Htr].
Qed.

(** ** Termination *)

(** The inner loop reads nothing and leaves [ev] as it is. *)
Lemma write_retry_keeps (w : world) :
  forall fuel st t c st',
    write_retry fuel w st t = (c, st') ->
    reads st' = reads st /\ ev st' = ev st.
Proof.
  induction fuel as [|fuel IH]; intros st t c st' Hrun.
  - cbn in Hrun. destruct (t <? event_size); inversion Hrun; auto.
  - rewrite write_retry_step in Hrun.
    destruct (t <? event_size); [|inversion Hrun; auto].
    unfold sys_write in Hrun.
    destruct (wr w (writes st)) as [n|e].
    + match type of Hrun with
      | (if ?b then _ else _) = _ => destruct b
      end.
      * cbn [errno] in Hrun.
        destruct (errno st =? EINTR);
          [apply IH in Hrun; exact Hrun|].
        destruct (errno st =? EPIPE); inversion Hrun; auto.
      * apply IH in Hrun. exact Hrun.
    + change (-1 <? 0) with true in Hrun. cbn iota in Hrun.
      cbn [errno] in Hrun.
      destruct (e =? EINTR); [apply IH in Hrun; exact Hrun|].
      destruct (e =? EPIPE); inversion Hrun; auto.
Qed.

(** When every write from the [M]-th on advances, the inner loop ends:
    each round either uses up one of the writes before the [M]-th or
    moves [total_written] forward. *)
Lemma write_retry_ends_after (w : world) (M : nat) :
  (forall i, (M <= i)%nat -> advances (wr w i)) ->
  forall fuel st t,
    event_size <= Z.of_nat (List.length (ev st)) -> 0 <= t ->
    Z.of_nat (M - writes st) + (event_size - t) <= Z.of_nat fuel ->
    fst (write_retry fuel w st t) <> Running.
Proof.
  intros Hadv. assert (Hes : event_size = 24) by reflexivity.
  induction fuel as [|fuel IH]; intros st t Hev Ht Hfuel.
  - cbn. destruct (Z.ltb_spec t event_size); [lia | discriminate].
  - rewrite write_retry_step.
    destruct (Z.ltb_spec t event_size); [|discriminate].
    unfold sys_write. rewrite to_size_t_small by lia.
    set (buf := firstn (Z.to_nat (event_size - t))
                       (skipn (Z.to_nat t) (ev st))).
    assert (Hbuf : (1 <= List.length buf)%nat).
    { unfold buf. rewrite length_firstn, length_skipn. lia. }
    destruct (Nat.le_gt_cases M (writes st)) as [Hlate|Hearly].
    + (* the write advances *)
      specialize (Hadv _ Hlate).
      destruct (wr w (writes st)) as [n|e]; cbn in Hadv.
      * assert (Hsent : (1 <= List.length (firstn n buf))%nat)
          by (rewrite length_firstn; lia).
        destruct (Z.ltb_spec (Z.of_nat (List.length (firstn n buf))) 0);
          [lia|].
        apply IH; cbn [ev writes]; lia.
      * change (-1 <? 0) with true. cbn iota. cbn [errno].
        apply Z.eqb_neq in Hadv. rewrite Hadv.
        destruct (e =? EPIPE); discriminate.
    + (* one of the writes before the [M]-th *)
      destruct (wr w (writes st)) as [n|e].
      * destruct (Z.ltb_spec (Z.of_nat (List.length (firstn n buf))) 0);
          [lia|].
        apply IH; cbn [ev writes]; lia.
      * change (-1 <? 0) with true. cbn iota. cbn [errno].
        destruct (e =? EINTR).
        -- apply IH; cbn [ev writes]; lia.
        -- destruct (e =? EPIPE); discriminate.
Qed.

(** When the [N]-th read meets the end of the input and every write from
    the [M]-th on advances, the outer loop ends. *)
Lemma main_loop_ends (w : world) (N M : nat) :
  rd w N = RdBytes [] ->
  (forall i, (M <= i)%nat -> advances (wr w i)) ->
  forall k fuel st,
    (reads st + k = N)%nat -> (k + M + 25 <= fuel)%nat ->
    exists status, fst (main_loop fuel w st) = Some status.
Proof.
  intros Heof Hadv. assert (Hes : event_size = 24) by reflexivity.
  induction k as [|k IH]; intros fuel st Hreads Hfuel;
    (destruct fuel as [|fuel]; [lia|]).
  { rewrite main_loop_eof by (rewrite Nat.add_0_r in Hreads; congruence).
    exists 0. reflexivity. }
  assert (Hnext : forall st1, reads st1 = S (reads st) ->
            exists status, fst (main_loop fuel w st1) = Some status).
  { intros st1 H1. apply IH; lia. }
  rewrite main_loop_step. unfold sys_read.
  destruct (rd w (reads st)) as [data|e].
  - set (got := firstn (Z.to_nat event_size) data).
    assert (Hgot : 0 <= Z.of_nat (List.length got) <= event_size).
    { unfold got. rewrite length_firstn. lia. }
    destruct (Z.eqb_spec (Z.of_nat (List.length got)) 0);
      [exists 0; reflexivity|].
    destruct (Z.ltb_spec (Z.of_nat (List.length got)) 0); [lia|].
    rewrite to_size_t_small by lia.
    destruct (Z.ltb_spec (Z.of_nat (List.length got)) event_size);
      [exists 1; reflexivity|].
    cbv zeta. unfold sys_write, fprintf_stderr, record_event.
    cbn [ev errno reads writes trace].
    destruct (wr w (writes st)) as [m|e].
    + match goal with
      | |- context [firstn m ?b] => set (sent := firstn m b)
      end.
      destruct (Z.of_nat (List.length sent) <? 0).
      * cbn [errno].
        destruct (errno st =? EPIPE); [exists 0; reflexivity|].
        destruct (errno st =? EINTR); [|exists 1; reflexivity].
        match goal with
        | |- context [write_retry fuel w ?a 0] =>
            pose proof (write_retry_ends_after w M Hadv fuel a 0) as Hends;
            destruct (write_retry fuel w a 0) as [c st4] eqn:Hretry
        end.
        apply write_retry_keeps in Hretry. destruct Hretry as [Hr4 _].
        cbn [reads] in Hr4.
        destruct c as [| | |status]; cbn [fst snd] in *.
        -- exfalso. apply Hends; [|lia| |reflexivity].
           ++ cbn [ev]. rewrite length_app. lia.
           ++ cbn [writes]. lia.
        -- apply Hnext. exact Hr4.
        -- exists 0. reflexivity.
        -- exists status. reflexivity.
      * destruct (to_size_t (Z.of_nat (List.length sent)) <? event_size);
          [exists 1; reflexivity|].
        apply Hnext. reflexivity.
    + change (-1 <? 0) with true. cbn iota. cbn [errno].
      destruct (e =? EPIPE); [exists 0; reflexivity|].
      destruct (e =? EINTR); [|exists 1; reflexivity].
      match goal with
      | |- context [write_retry fuel w ?a 0] =>
          pose proof (write_retry_ends_after w M Hadv fuel a 0) as Hends;
          destruct (write_retry fuel w a 0) as [c st4] eqn:Hretry
      end.
      apply write_retry_keeps in Hretry. destruct Hretry as [Hr4 _].
      cbn [reads] in Hr4.
      destruct c as [| | |status]; cbn [fst snd] in *.
      * exfalso. apply Hends; [|lia| |reflexivity].
        -- cbn [ev]. rewrite length_app. lia.
        -- cbn [writes]. lia.
      * apply Hnext. exact Hr4.
      * exists 0. reflexivity.
      * exists status. reflexivity.
  - change (-1 =? 0) with false. change (-1 <? 0) with true. cbn iota.
    cbn [errno]. destruct (e =? EINTR); [|exists 1; reflexivity].
    apply Hnext. reflexivity.
Qed.

(** X5: [main] returns.  When the input comes to its end (the [N]-th read
    returns zero bytes) and the output stream, after at most [M] writes,
    answers every write by taking at least one byte or by failing with an
    error other than EINTR, the process exits, whatever else the reads and
    the first [M] writes do; a fuel of [N + M + 25] is enough for the two
    loops. *)
Theorem X5_main_terminates (w : world) (ev0 : list byte) (N M fuel : nat) :
  rd w N = RdBytes [] ->
  (forall i, (M <= i)%nat -> advances (wr w i)) ->
  (N + M + 25 <= fuel)%nat ->
  exists status, fst (main fuel w ev0) = Some status.
Proof.
  intros Heof Hadv Hfuel.
  apply (main_loop_ends w N M Heof Hadv N fuel (init ev0)); [reflexivity|lia].
Qed.

Lemma X5_main_terminates_witness :
  exists status, fst (main 30 signals []) = Some status.
Proof.
  apply (X5_main_terminates signals [] 2 3 30).
  - reflexivity.
  - intros i Hi. unfold signals, sink. cbn [wr].
    do 3 (destruct i as [|i]; [lia|]).
    destruct i; cbn; lia.
  - lia.
Defined.

(** ** Signals *)

(** The state after a read that a signal interrupted. *)
Lemma main_loop_read_eintr (fuel : nat) (w : world) (st : state) :
  rd w (reads st) = RdErr EINTR ->
  main_loop (S fuel) w st =
  main_loop fuel w
    {| ev := ev st; errno := EINTR; reads := S (reads st);
       writes := writes st;
       trace := trace st ++ [EvRead event_size (RdErr EINTR)] |}.
Proof.
  intros Hrd. cbn [main_loop]. unfold sys_read. rewrite Hrd. reflexivity.
Qed.

Lemma read_storm_loop (w : world) (n : nat) :
  (forall i, (i < n)%nat -> rd w i = RdErr EINTR) ->
  forall fuel st,
    (reads st + fuel <= n)%nat ->
    fst (main_loop fuel w st) = None /\
    trace (snd (main_loop fuel w st)) =
      trace st ++ repeat (EvRead event_size (RdErr EINTR)) fuel.
Proof.
  intros Hrd. induction fuel as [|fuel IH]; intros st Hn.
  - cbn. now rewrite app_nil_r.
  - rewrite main_loop_read_eintr by (apply Hrd; lia).
    destruct (IH {| ev := ev st; errno := EINTR; reads := S (reads st);
                    writes := writes st;
                    trace := trace st ++ [EvRead event_size (RdErr EINTR)] |})
      as [Hc Htr]; [cbn [reads]; lia|].
    split; [exact Hc|]. rewrite Htr. cbn [trace repeat].
    rewrite <- app_assoc. reflexivity.
Qed.

(** X6: a read that fails with EINTR is made again, as often as it takes:
    while the reads fail with EINTR the process has not exited, and its
    only calls are those reads, each for a whole record; it writes nothing,
    reports nothing, and neither waits nor gives up. *)
Theorem X6_interrupted_reads_retried (w : world) (ev0 : list byte)
    (n fuel : nat) :
  (forall i, (i < n)%nat -> rd w i = RdErr EINTR) -> (fuel <= n)%nat ->
  fst (main fuel w ev0) = None /\
  trace (snd (main fuel w ev0)) =
    repeat (EvRead event_size (RdErr EINTR)) fuel.
Proof.
  intros Hrd Hfuel.
  apply (read_storm_loop w n Hrd fuel (init ev0)). cbn [init reads]. lia.
Qed.

Lemma X6_interrupted_reads_retried_witness :
  fst (main 7 read_storm []) = None /\
  trace (snd (main 7 read_storm [])) =
    repeat (EvRead event_size (RdErr EINTR)) 7.
Proof.
  apply (X6_interrupted_reads_retried read_storm [] 7 7).
  - intros i Hi. reflexivity.
  - lia.
Defined.

(** With writes that take a whole record unless a signal interrupts them,
    and with the signals ending by the [M]-th write, the inner loop
    transmits the record. *)
Lemma write_retry_signals (w : world) (M : nat) (r tl : list byte) :
  well_formed r ->
  (forall i, full_or_interrupted (wr w i)) ->
  (forall i, (M <= i)%nat -> wr w i <> WrErr EINTR) ->
  forall fuel st,
    ev st = r ++ tl -> (M - writes st < fuel)%nat ->
    exists st', write_retry fuel w st 0 = (Fallthrough, st').
Proof.
  intros Hr Hfull Hquiet. assert (Hes : event_size = 24) by reflexivity.
  induction fuel as [|fuel IH]; intros st Hev Hfuel; [lia|].
  rewrite write_retry_step. change (0 <? event_size) with true. cbn iota.
  unfold sys_write. rewrite Hev, offered_bytes by (assumption || lia).
  rewrite rest_0.
  pose proof (Hfull (writes st)) as Hw. pose proof (Hquiet (writes st)) as Hq.
  destruct (wr w (writes st)) as [n|e]; cbn in Hw.
  - unfold well_formed in Hr.
    rewrite (firstn_all2 (n := n) r) by lia. rewrite Hr.
    change (event_size <? 0) with false. cbn iota.
    eexists. destruct fuel; reflexivity.
  - subst e. change (-1 <? 0) with true. cbn iota. cbn [errno].
    change (EINTR =? EINTR) with true. cbn iota.
    apply IH; [reflexivity|]. cbn [writes].
    destruct (Nat.le_gt_cases M (writes st)) as [Hlate|Hearly]; [|lia].
    contradiction (Hq Hlate). reflexivity.
Qed.

Lemma delivered_S (w : world) (k n : nat) :
  delivered w k (S n) =
  match rd w k with RdBytes d => [d] | RdErr _ => [] end ++
  delivered w (S k) n.
Proof. reflexivity. Qed.

Lemma signals_only_loop (w : world) (N M : nat) :
  (forall i, (i < N)%nat -> whole_or_interrupted (rd w i)) ->
  rd w N = RdBytes [] ->
  (forall i, full_or_interrupted (wr w i)) ->
  (forall i, (M <= i)%nat -> wr w i <> WrErr EINTR) ->
  forall k fuel st,
    (reads st + k = N)%nat -> (k + M + 2 <= fuel)%nat ->
    exists st' evs,
      main_loop fuel w st = (Some 0, st') /\ trace st' = trace st ++ evs /\
      stdout_of evs = List.concat (delivered w (reads st) k) /\
      stderr_of evs =
        map (fun r => EvFprintf (read_event_line r))
            (delivered w (reads st) k).
Proof.
  intros Hrd Heof Hfull Hquiet. assert (Hes : event_size = 24) by reflexivity.
  induction k as [|k IH]; intros fuel st Hreads Hfuel;
    (destruct fuel as [|fuel]; [lia|]).
  { rewrite main_loop_eof by (rewrite Nat.add_0_r in Hreads; congruence).
    eexists. exists [EvRead event_size (RdBytes [])].
    repeat split; reflexivity. }
  rewrite delivered_S.
  pose proof (Hrd (reads st) ltac:(lia)) as Hr.
  destruct (rd w (reads st)) as [r|e] eqn:Hread; cbn in Hr.
  - pose proof (Hfull (writes st)) as Hw.
    destruct (wr w (writes st)) as [n|e] eqn:Hwrite; cbn in Hw.
    + (* the record is forwarded at once *)
      rewrite (main_loop_forward fuel w st r n Hr Hread Hwrite)
        by (unfold well_formed in Hr; lia).
      destruct (IH fuel (forwarded st r))
        as (st' & evs & Hrun & Htr & Hout & Herr);
        [cbn [forwarded reads]; lia | lia |].
      cbn [forwarded reads trace] in Htr, Hout, Herr.
      exists st', (relay r ++ evs). split; [exact Hrun|].
      split; [rewrite Htr; symmetry; apply app_assoc|].
      rewrite stdout_of_app, stderr_of_app, Hout, Herr.
      split; [|reflexivity].
      cbn [List.concat app]. f_equal.
      cbn. rewrite firstn_all. apply app_nil_r.
    + (* the write is interrupted, the inner loop transmits the record *)
      subst e.
      rewrite (main_loop_interrupted fuel w st r Hr Hread Hwrite).
      destruct (write_retry_signals w M r (skipn (List.length r) (ev st))
                  Hr Hfull Hquiet fuel (interrupted st r))
        as (st4 & Hretry); [reflexivity | cbn [interrupted writes]; lia|].
      rewrite Hretry.
      destruct (write_retry_sound w r (skipn (List.length r) (ev st)) Hr
                  fuel (interrupted st r) 0 Fallthrough st4
                  eq_refl ltac:(lia) Hretry)
        as (ws & Htr4 & Hshape & _ & Hreads4).
      cbn [interrupted reads trace] in Htr4, Hreads4.
      destruct (IH fuel st4) as (st' & evs & Hrun & Htr & Hout & Herr);
        [lia | lia |].
      rewrite Hreads4 in Hout, Herr.
      exists st', (opening r ++ EvWrite r (WrErr EINTR) :: ws ++ evs).
      split; [exact Hrun|].
      split; [rewrite Htr, Htr4, <- !app_assoc; reflexivity|].
      destruct (retry_trace_stderr r 0 ws Fallthrough Hshape) as [_ Hquiet'].
      change (opening r ++ EvWrite r (WrErr EINTR) :: ws ++ evs)
        with (opening r ++ [EvWrite r (WrErr EINTR)] ++ ws ++ evs).
      rewrite !stdout_of_app, !stderr_of_app, Hout, Herr, Hquiet',
        (retry_completes r ws Hr Hshape).
      split; reflexivity.
  - (* the read is interrupted *)
    subst e. rewrite (main_loop_read_eintr fuel w st Hread).
    destruct (IH fuel
                {| ev := ev st; errno := EINTR; reads := S (reads st);
                   writes := writes st;
                   trace := trace st ++ [EvRead event_size (RdErr EINTR)] |})
      as (st' & evs & Hrun & Htr & Hout & Herr);
      [cbn [reads]; lia | lia |].
    cbn [reads trace] in Htr, Hout, Herr.
    exists st', (EvRead event_size (RdErr EINTR) :: evs).
    split; [exact Hrun|].
    split; [rewrite Htr, <- app_assoc; reflexivity|].
    split; [exact Hout | exact Herr].
Qed.

(** X7: signals do no harm.  When every read before the end of the input
    returns a whole record or fails with EINTR, and every write takes a
    whole record or fails with EINTR, the signals on the output ending at
    some point, the process exits with status 0, the output stream holds
    exactly the records the input delivered, each once and in the order
    delivered, and the diagnostics are exactly their log lines, whatever
    the number and the places of the interruptions. *)
Theorem X7_signals_harmless (w : world) (ev0 : list byte) (N M fuel : nat) :
  (forall i, (i < N)%nat -> whole_or_interrupted (rd w i)) ->
  rd w N = RdBytes [] ->
  (forall i, full_or_interrupted (wr w i)) ->
  (forall i, (M <= i)%nat -> wr w i <> WrErr EINTR) ->
  (N + M + 2 <= fuel)%nat ->
  exists st,
    main fuel w ev0 = (Some 0, st) /\
    stdout_of (trace st) = List.concat (delivered w 0 N) /\
    stderr_of (trace st) =
      map (fun r => EvFprintf (read_event_line r)) (delivered w 0 N).
Proof.
  intros Hrd Heof Hfull Hquiet Hfuel.
  destruct (signals_only_loop w N M Hrd Heof Hfull Hquiet N fuel (init ev0))
    as (st & evs & Hrun & Htr & Hout & Herr); [reflexivity | lia |].
  cbn [init trace reads app] in Htr, Hout, Herr.
  exists st. rewrite Htr. auto.
Qed.

Lemma X7_signals_harmless_witness :
  exists st,
    main 11 signalled [] = (Some 0, st) /\
    stdout_of (trace st) = List.concat (delivered signalled 0 5) /\
    stderr_of (trace st) =
      map (fun r => EvFprintf (read_event_line r)) (delivered signalled 0 5).
Proof.
  apply (X7_signals_harmless signalled [] 5 4 11).
  - intros i Hi.
    do 5 (destruct i as [|i]; [vm_compute; reflexivity|]). lia.
  - reflexivity.
  - intros i. unfold signalled, sink. cbn [wr].
    do 4 (destruct i as [|i]; [cbn; reflexivity || lia|]).
    destruct i; cbn; lia.
  - intros i Hi. unfold signalled, sink. cbn [wr].
    do 4 (destruct i as [|i]; [lia|]).
    destruct i; discriminate.
  - lia.
Defined.
